(** * go-seele p2p core: framed transport, handshake, peer and server loop

    A shallow embedding of [p2p/peer.go] and [p2p/server.go].  Unsigned
    machine integers are integers with their wrap-around written out, byte
    slices are lists of integers in [0, 256), Go maps are finite maps,
    pointers to peers are addresses, and the network connection is an
    explicit state threaded through every call. *)

From Stdlib Require Import ZArith List Lia Bool.
From stdpp Require Import gmap strings list fin_maps pretty sorting.
Import ListNotations.
Open Scope Z_scope.

(** ** Machine integers and byte order ([encoding/binary]) *)

Definition uint8 (x : Z) : Z := Z.land x 255.
Definition uint16 (x : Z) : Z := x mod 2 ^ 16.
Definition uint32 (x : Z) : Z := x mod 2 ^ 32.

(** [b[i:j]] on a byte slice. *)
Definition slice (b : list Z) (i j : nat) : list Z := firstn (j - i) (skipn i b).

(** [b[i]]; the slices indexed below always have the index in range. *)
Definition idx (b : list Z) (i : nat) : Z := nth i b 0.

Module BigEndian.

Definition PutUint16 (v : Z) : list Z :=
  [uint8 (Z.shiftr v 8); uint8 v].

Definition PutUint32 (v : Z) : list Z :=
  [uint8 (Z.shiftr v 24); uint8 (Z.shiftr v 16); uint8 (Z.shiftr v 8); uint8 v].

Definition Uint16 (b : list Z) : Z :=
  Z.lor (idx b 1) (Z.shiftl (idx b 0) 8).

Definition Uint32 (b : list Z) : Z :=
  Z.lor (Z.lor (Z.lor (idx b 3) (Z.shiftl (idx b 2) 8))
               (Z.shiftl (idx b 1) 16))
        (Z.shiftl (idx b 0) 24).

End BigEndian.

(** ** Errors returned by the package *)

Inductive error : Type :=
| ErrIO                 (* a failed or timed-out read or write on the connection *)
| ErrSerialize          (* common.Serialize failed *)
| ErrDeserialize        (* common.Deserialize failed *)
| ErrNotFoundNodeID     (* "Not found nodeID in discovery database!" *)
| ErrDiscRecved         (* "disc error recved" *)
| ErrNotValidProtoCode  (* "not valid protoCode" *)
| ErrCtlDisc            (* fmt.Errorf("error=%d", ctlMsgDiscCode) *)
| ErrNotFoundProtoCode  (* "Not Found protoCode" *)
| ErrEOF.               (* io.EOF *)

(** ** The connection ([net.Conn])

    [rbuf] holds the bytes the remote end delivers before the read deadline,
    [wbuf] the bytes accepted by [Write] so far.  [wroom] is the failure
    oracle of the write side: [Some n] lets [n] more bytes through before a
    write fails (broken pipe, write deadline), [None] never fails. *)

Record Conn : Type := mkConn {
  rbuf : list Z;
  wbuf : list Z;
  wroom : option nat;
  isClosed : bool
}.

Definition conn_Close (c : Conn) : Conn :=
  {| rbuf := rbuf c; wbuf := wbuf c; wroom := wroom c; isClosed := true |}.

Definition conn_Write (c : Conn) (b : list Z) : Conn * option error :=
  if isClosed c then (c, Some ErrIO)
  else match wroom c with
       | None =>
           ({| rbuf := rbuf c; wbuf := wbuf c ++ b; wroom := None;
               isClosed := false |}, None)
       | Some n =>
           if (length b <=? n)%nat
           then ({| rbuf := rbuf c; wbuf := wbuf c ++ b;
                    wroom := Some (n - length b)%nat; isClosed := false |}, None)
           else ({| rbuf := rbuf c; wbuf := wbuf c ++ firstn n b;
                    wroom := Some 0%nat; isClosed := false |}, Some ErrIO)
       end.

(** [io.ReadFull(conn, buf)] with [len(buf) = n].  A zero-length buffer is
    filled without touching the connection. *)
Definition ReadFull (c : Conn) (n : nat) : Conn * (error + list Z) :=
  match n with
  | O => (c, inr [])
  | _ =>
      if isClosed c then (c, inl ErrIO)
      else if (n <=? length (rbuf c))%nat
           then ({| rbuf := skipn n (rbuf c); wbuf := wbuf c; wroom := wroom c;
                    isClosed := false |}, inr (firstn n (rbuf c)))
           else ({| rbuf := []; wbuf := wbuf c; wroom := wroom c;
                    isClosed := false |}, inl ErrIO)
  end.

(** ** Frames *)

(** Address of a [Peer] object: [*Peer] values are compared by address. *)
Definition PeerPtr : Type := nat.

Module Message.
Record t : Type := mk {
  size : Z;                    (* uint32 *)
  msgCode : Z;                 (* uint16 *)
  payload : list Z;
  ReceivedAt : Z;
  CurPeer : option PeerPtr
}.
End Message.

(** [msg] wraps a [Message] with the protocol code it travels under. *)
Record msg : Type := mkMsg {
  protoCode : Z;                 (* uint16 *)
  message : Message.t
}.

Definition sendRawMsg (c : Conn) (msgSend : msg) : Conn * option error :=
  let b := BigEndian.PutUint32 (Message.size (message msgSend))
           ++ BigEndian.PutUint16 (protoCode msgSend)
           ++ BigEndian.PutUint16 (Message.msgCode (message msgSend)) in
  match conn_Write c b with
  | (c1, Some err) => (c1, Some err)
  | (c1, None) =>
      match conn_Write c1 (Message.payload (message msgSend)) with
      | (c2, Some err) => (c2, Some err)
      | (c2, None) => (c2, None)
      end
  end.

Definition recvRawMsg (c : Conn) (now : Z) (p : PeerPtr) : Conn * (error + msg) :=
  match ReadFull c 8 with
  | (c1, inl err1) => (c1, inl err1)
  | (c1, inr headbuf) =>
      let sz := BigEndian.Uint32 (slice headbuf 0 4) in
      let pc := BigEndian.Uint16 (slice headbuf 4 6) in
      let mc := BigEndian.Uint16 (slice headbuf 6 8) in
      match ReadFull c1 (Z.to_nat sz) with
      | (c2, inl err) => (c2, inl err)
      | (c2, inr pl) =>
          (c2, inr {| protoCode := pc;
                      message := {| Message.size := sz; Message.msgCode := mc;
                                    Message.payload := pl;
                                    Message.ReceivedAt := now;
                                    Message.CurPeer := Some p |} |})
      end
  end.

(** A frame as the Go types allow it: the header fields fit their widths and
    [size] is the payload length (every sender in the package sets it so). *)
Definition frame_ok (m : msg) : Prop :=
  0 <= Message.size (message m) < 2 ^ 32 /\
  0 <= protoCode m < 2 ^ 16 /\
  0 <= Message.msgCode (message m) < 2 ^ 16 /\
  Z.of_nat (length (Message.payload (message m))) = Message.size (message m).

(** The bytes a successful [sendRawMsg] puts on the wire. *)
Definition wire_bytes (m : msg) : list Z :=
  BigEndian.PutUint32 (Message.size (message m))
  ++ BigEndian.PutUint16 (protoCode m)
  ++ BigEndian.PutUint16 (Message.msgCode (message m))
  ++ Message.payload (message m).

(** ** Capabilities, protocols, nodes *)

(** Modelled from the spec: the [Cap] type is declared outside the two source
    files; the spec gives a capability as a pair (name: short string,
    version: small integer). *)
Record Cap : Type := mkCap {
  cap_Name : string;
  cap_Version : Z
}.

(** Modelled from the spec: the [Protocol] type and its [cap()] method are
    declared outside the two source files; each sub-protocol advertises
    exactly one capability, its name and version. *)
Record Protocol : Type := mkProtocol {
  Name : string;
  Version : Z
}.

Definition cap (proto : Protocol) : Cap :=
  {| cap_Name := Name proto; cap_Version := Version proto |}.

(** [common.Address], a fixed-width byte array. *)
Definition Address : Type := list Z.

(** [discovery.Node]. *)
Record Node : Type := mkNode {
  ID : Address;
  IP : list Z;
  UDPPort : Z
}.

(** The handshake payload before serialization. *)
Record protoHandShake : Type := mkHandShake {
  caps : list Cap;
  nounce : Z;                    (* uint32 *)
  nodeID : list Z
}.

(** What the two files use but do not declare: the control and base codes,
    the width of the handshake's node-ID array, the capability string, and
    the helpers of package [common]. *)
Record Externals : Type := mkExternals {
  ctlProtoCode : Z;
  baseProtoCode : Z;
  ctlMsgProtoHandshake : Z;
  ctlMsgDiscCode : Z;
  ctlMsgPingCode : Z;
  ctlMsgPongCode : Z;
  nodeIDLen : nat;
  Cap_String : Cap -> string;
  HexToAddress : string -> Address;
  Serialize : protoHandShake -> error + list Z;
  (* the decoding target is handed over by value, see [setupConn] *)
  Deserialize : list Z -> protoHandShake -> option error
}.

Definition discAlreadyConnected : Z := 10.
Definition discServerQuit : Z := 11.

Definition inboundConn : Z := 1.
Definition outboundConn : Z := 2.

(** ** Peer *)

Inductive chan_state : Type := ChanOpen | ChanClosed.

Record Peer : Type := mkPeer {
  conn : Conn;
  node : option Node;
  created : Z;
  err : option error;
  closed : chan_state;           (* chan struct{} *)
  disc : chan_state;             (* chan uint *)
  protoMap : gmap Z Protocol;    (* protoCode => proto *)
  capMap : gmap string Z         (* cap of protocol => protoCode *)
}.

Definition set_conn (p : Peer) (c : Conn) : Peer :=
  {| conn := c; node := node p; created := created p; err := err p;
     closed := closed p; disc := disc p;
     protoMap := protoMap p; capMap := capMap p |}.

Definition set_err (p : Peer) (e : option error) : Peer :=
  {| conn := conn p; node := node p; created := created p; err := e;
     closed := closed p; disc := disc p;
     protoMap := protoMap p; capMap := capMap p |}.

Definition close_closed (p : Peer) : Peer :=
  {| conn := conn p; node := node p; created := created p; err := err p;
     closed := ChanClosed; disc := disc p;
     protoMap := protoMap p; capMap := capMap p |}.

Definition close_disc (p : Peer) : Peer :=
  {| conn := conn p; node := node p; created := created p; err := err p;
     closed := closed p; disc := ChanClosed;
     protoMap := protoMap p; capMap := capMap p |}.

(** [sendCtlMsg] drops the result of [sendRawMsg] and returns nil. *)
Definition sendCtlMsg (X : Externals) (c : Conn) (msgCode : Z) : Conn * option error :=
  let hsMsg := {| protoCode := ctlProtoCode X;
                  message := {| Message.size := 0; Message.msgCode := msgCode;
                                Message.payload := []; Message.ReceivedAt := 0;
                                Message.CurPeer := None |} |} in
  let '(c1, _) := sendRawMsg c hsMsg in
  (c1, None).

(** [SendMsg], called by protocols; [msgSend] travels under the code the
    handshake gave to the protocol's capability. *)
Definition SendMsg (X : Externals) (p : Peer) (proto : Protocol)
    (msgSend : Message.t) : Peer * option error :=
  match capMap p !! Cap_String X (cap proto) with
  | None => (p, Some ErrNotFoundProtoCode)
  | Some code =>
      let '(c1, e) := sendRawMsg (conn p) {| protoCode := code; message := msgSend |} in
      (set_conn p c1, e)
  end.

(** What [handle] does with a received frame. *)
Inductive handled : Type :=
| Forwarded (proto : Protocol)   (* sent on proto.ReadMsgCh *)
| Abandoned                      (* p.closed fired first: io.EOF *)
| PongSpawned                    (* go p.sendCtlMsg(ctlMsgPongCode) *)
| Ignored                        (* control frame with no action *)
| Rejected (e : error).

(** [forwarded] tells which branch of the inner select is taken when the
    protocol code is in the table. *)
Definition handle (X : Externals) (p : Peer) (msgRecv : msg) (forwarded : bool) : handled :=
  match protoMap p !! protoCode msgRecv with
  | Some proto => if forwarded then Forwarded proto else Abandoned
  | None =>
      if negb (protoCode msgRecv =? 1) then Rejected ErrNotValidProtoCode
      else if Message.msgCode (message msgRecv) =? ctlMsgPingCode X then PongSpawned
      else if Message.msgCode (message msgRecv) =? ctlMsgDiscCode X then Rejected ErrCtlDisc
      else Ignored
  end.

Definition handle_err (h : handled) : option error :=
  match h with
  | Abandoned => Some ErrEOF
  | Rejected e => Some e
  | _ => None
  end.

(** ** Peer.run and the goroutines around it

    [run] is followed by its program counter.  [writeErr] and [readErr] are
    the two buffered channels [run] creates; [readErr] is handed to
    [readLoop], [writeErr] to nobody. *)

Inductive run_pc : Type :=
| AtAnnounce      (* AddPeerCh sends, wg.Add(2), go readLoop, go pingLoop *)
| AtSelect        (* parked in the select of the loop *)
| AtCloseClosed   (* loop left; next: close(p.closed) *)
| AtConnClose     (* next: p.conn.Close() *)
| AtCloseDisc     (* next: close(p.disc) *)
| AtWait          (* next: p.wg.Wait() and the DelPeerCh sends *)
| AtReturn.

Record PeerRun : Type := mkPeerRun {
  peer : Peer;
  pc : run_pc;
  writeErr : list (option error);
  readErr : list (option error)
}.

Definition with_peer (s : PeerRun) (p : Peer) (k : run_pc) : PeerRun :=
  {| peer := p; pc := k; writeErr := writeErr s; readErr := readErr s |}.

(** The cases of [run]'s select that can proceed without another goroutine:
    a value buffered in [writeErr] or in [readErr]. *)
Definition run_select (s : PeerRun) : list PeerRun :=
  match writeErr s with
  | None :: w =>
      [ {| peer := peer s; pc := AtSelect; writeErr := w; readErr := readErr s |} ]
  | Some e :: w =>
      [ {| peer := set_err (peer s) (Some e); pc := AtCloseClosed;
           writeErr := w; readErr := readErr s |} ]
  | [] => []
  end ++
  match readErr s with
  | e :: r =>
      [ {| peer := set_err (peer s) e; pc := AtCloseClosed;
           writeErr := writeErr s; readErr := r |} ]
  | [] => []
  end.

(** The states [run] can move to on its own; the empty list is a blocked
    (or finished) goroutine. *)
Definition run_step (s : PeerRun) : list PeerRun :=
  match pc s with
  | AtAnnounce => [with_peer s (peer s) AtSelect]
  | AtSelect => run_select s
  | AtCloseClosed => [with_peer s (close_closed (peer s)) AtConnClose]
  | AtConnClose => [with_peer s (set_conn (peer s) (conn_Close (conn (peer s)))) AtCloseDisc]
  | AtCloseDisc => [with_peer s (close_disc (peer s)) AtWait]
  | AtWait => [with_peer s (peer s) AtReturn]
  | AtReturn => []
  end.

(** [run] keeps taking its first enabled step. *)
Fixpoint run_exec (fuel : nat) (s : PeerRun) : PeerRun :=
  match fuel with
  | O => s
  | S fuel' =>
      match run_step s with
      | [] => s
      | s' :: _ => run_exec fuel' s'
      end
  end.

(** [pingLoop], case [<-ping.C]: one ping is written and its outcome dropped. *)
Definition pingLoop_fire (X : Externals) (s : PeerRun) : PeerRun :=
  with_peer s (set_conn (peer s) (fst (sendCtlMsg X (conn (peer s)) (ctlMsgPingCode X)))) (pc s).

(** [readLoop], one iteration; [Some s'] when the loop goes on, otherwise the
    error is put on [errc] and the loop ends. *)
Definition readLoop_iter (X : Externals) (s : PeerRun) (now : Z) (self : PeerPtr)
    (forwarded : bool) : PeerRun * bool :=
  match recvRawMsg (conn (peer s)) now self with
  | (c1, inl e) =>
      ({| peer := set_conn (peer s) c1; pc := pc s; writeErr := writeErr s;
          readErr := readErr s ++ [Some e] |}, false)
  | (c1, inr msgRecv) =>
      match handle_err (handle X (peer s) msgRecv forwarded) with
      | Some e =>
          ({| peer := set_conn (peer s) c1; pc := pc s; writeErr := writeErr s;
              readErr := readErr s ++ [Some e] |}, false)
      | None => (with_peer s (set_conn (peer s) c1) (pc s), true)
      end
  end.

(** Outcome of one call of [Disconnect]. *)
Inductive disc_outcome : Type :=
| DiscPosted      (* the reason was received by run *)
| DiscDropped     (* case <-p.closed *)
| DiscPanic.      (* send on closed channel *)

(** [Disconnect]: the cases of its select that can proceed, each with the
    state it leads to.  A send on [p.disc] proceeds when [run] is parked in
    its select (and then [run] takes its [<-p.disc] case), and also when
    [p.disc] is closed, where it panics; the receive on [p.closed] proceeds
    once that channel is closed.  Go picks any case that can proceed; with
    none, the caller blocks. *)
Definition Disconnect (s : PeerRun) (reason : Z) : list (disc_outcome * PeerRun) :=
  match disc (peer s) with
  | ChanClosed => [(DiscPanic, s)]
  | ChanOpen =>
      match pc s with
      | AtSelect =>
          [(DiscPosted, with_peer s (set_err (peer s) (Some ErrDiscRecved)) AtCloseClosed)]
      | _ => []
      end
  end ++
  match closed (peer s) with
  | ChanClosed => [(DiscDropped, s)]
  | ChanOpen => []
  end.

(** ** Handshake *)

(** The loop of [setupConn] that fills the two code tables. *)
Fixpoint assignCodes (X : Externals) (protos : list Protocol) (protoCode : Z)
    (pm : gmap Z Protocol) (cm : gmap string Z) : gmap Z Protocol * gmap string Z :=
  match protos with
  | [] => (pm, cm)
  | proto :: rest =>
      assignCodes X rest (uint16 (protoCode + 1))
        (<[protoCode := proto]> pm)
        (<[Cap_String X (cap proto) := protoCode]> cm)
  end.

(** [copy(dst, src)]. *)
Definition copy (dst src : list Z) : list Z :=
  firstn (length dst) src ++ skipn (length src) dst.

Record Server : Type := mkServer {
  MyNodeID : string;
  Protocols : list Protocol;
  kadDB : list Node;             (* what kadDB.GetCopy() ranges over, in order *)
  peers : gmap Address PeerPtr
}.

(** What [setupConn] reads from its surroundings. *)
Record Ambient : Type := mkAmbient {
  monotime_Now : Z;
  time_Now : Z;
  rand_Uint32 : Z;
  self_ptr : PeerPtr             (* address of the Peer being set up *)
}.

Record SetupResult : Type := mkSetup {
  fd_after : Conn;
  returned : option error;
  (* the peer the final goroutine sends on srv.addpeer and then runs *)
  admitted : option Peer
}.

(** [setupConn].  [common.Deserialize] receives [recvMsg] by value, so the
    fields read afterwards are those of the zero value. *)
Definition setupConn (X : Externals) (srv : Server) (fd : Conn) (flags : Z)
    (dialDest : option Node) (amb : Ambient) : SetupResult :=
  let caps_ := map cap (Protocols srv) in
  let handshakeMsg :=
    {| caps := caps_; nounce := rand_Uint32 amb;
       nodeID := copy (repeat 0 (nodeIDLen X)) (HexToAddress X (MyNodeID srv)) |} in
  match Serialize X handshakeMsg with
  | inl e => {| fd_after := conn_Close fd; returned := Some e; admitted := None |}
  | inr buffer =>
      let wrapMsg :=
        {| protoCode := ctlProtoCode X;
           message := {| Message.size := uint32 (Z.of_nat (length buffer));
                         Message.msgCode := ctlMsgProtoHandshake X;
                         Message.payload := buffer;
                         Message.ReceivedAt := 0; Message.CurPeer := None |} |} in
      let '(fd1, _) := sendRawMsg fd wrapMsg in
      match recvRawMsg fd1 (time_Now amb) (self_ptr amb) with
      | (fd2, inl e) =>
          {| fd_after := conn_Close fd2; returned := Some e; admitted := None |}
      | (fd2, inr recvWrapMsg) =>
          let recvMsg := {| caps := []; nounce := 0; nodeID := repeat 0 (nodeIDLen X) |} in
          match Deserialize X (Message.payload (message recvWrapMsg)) recvMsg with
          | Some e =>
              {| fd_after := conn_Close fd2; returned := Some e; admitted := None |}
          | None =>
              let peerNodeID := nodeID recvMsg in
              let '(pm, cm) :=
                assignCodes X (Protocols srv) (uint16 (baseProtoCode X)) ∅ ∅ in
              let peerNode :=
                if flags =? inboundConn
                then find (fun node => bool_decide (ID node = peerNodeID)) (kadDB srv)
                else None in
              match peerNode with
              | None =>
                  {| fd_after := fd2; returned := Some ErrNotFoundNodeID;
                     admitted := None |}
              | Some n =>
                  {| fd_after := fd2; returned := None;
                     admitted :=
                       Some {| conn := fd2; node := Some n;
                               created := monotime_Now amb; err := None;
                               closed := ChanOpen; disc := ChanOpen;
                               protoMap := pm; capMap := cm |} |}
              end
          end
      end
  end.

(** ** Server loop *)

(** What [Server.run] receives while it is running: the check timer, a peer
    on [srv.addpeer], a peer on [srv.delpeer]. *)
Inductive event : Type :=
| Tick
| AddPeer (c : PeerPtr)
| DelPeer (pd : PeerPtr).

(** What the loop does to the outside, in order. *)
Inductive effect : Type :=
| EffDial (n : Node)                         (* net.DialTimeout, then go setupConn *)
| EffDisconnect (p : PeerPtr) (reason : Z)   (* p.Disconnect(reason) *)
| EffRecvDel (p : PeerPtr).                  (* p := <-srv.delpeer while draining *)

Global Instance Node_eq_dec : EqDecision Node.
Proof. solve_decision. Defined.

Global Instance Cap_eq_dec : EqDecision Cap.
Proof. solve_decision. Defined.

(** [scheduleTasks]: every node of the snapshot that is not in the peer map
    is dialled. *)
Definition scheduleTasks (kad : list Node) (peers : gmap Address PeerPtr) : list effect :=
  map EffDial (filter (fun node : Node => peers !! ID node = None) kad).

(** One round of the select, for the cases [addpeer] and [delpeer].  [nid c]
    is [c.node.ID]: [setupConn] sets the node before the peer is sent on
    [srv.addpeer], and nothing writes it afterwards. *)
Definition serve_event (nid : PeerPtr -> Address) (peers : gmap Address PeerPtr)
    (ev : event) : gmap Address PeerPtr * list effect :=
  match ev with
  | Tick => (peers, [])
  | AddPeer c =>
      match peers !! nid c with
      | Some _ => (peers, [EffDisconnect c discAlreadyConnected])
      | None => (<[nid c := c]> peers, [])
      end
  | DelPeer pd =>
      match peers !! nid pd with
      | Some curPeer =>
          if bool_decide (curPeer = pd) then (delete (nid pd) peers, [])
          else (peers, [])
      | None => (peers, [])
      end
  end.

(** The [running] loop up to the round that receives from [srv.quit]. *)
Fixpoint serve (nid : PeerPtr -> Address) (kad : list Node)
    (peers : gmap Address PeerPtr) (evs : list event)
    : gmap Address PeerPtr * list effect :=
  match evs with
  | [] => (peers, scheduleTasks kad peers)
  | ev :: rest =>
      let '(peers1, eff) := serve_event nid peers ev in
      let '(peers2, effs) := serve nid kad peers1 rest in
      (peers2, scheduleTasks kad peers ++ eff ++ effs)
  end.

(** The outcome of [p.Disconnect(discServerQuit)] on a peer in state [s] when
    the select picks its [choice]-th case that can proceed; [None] when no
    case can, and the caller stays in the select. *)
Definition Disconnect_call (s : PeerRun) (choice : nat) : option disc_outcome :=
  match Disconnect s discServerQuit with
  | [] => None
  | o :: os => Some (nth choice (o :: os) o).1
  end.

(** How the loop over the peers at shutdown ends: every call returned, or
    one panicked, or one is still waiting in its select. *)
Inductive disconnect_result : Type :=
| AllReturned
| PanickedAt (p : PeerPtr)
| BlockedAt (p : PeerPtr).

(** [for _, p := range peers { p.Disconnect(discServerQuit) }], over the peers
    in the order the range yields them.  [view p] is the state of peer [p] in
    which the select of its call is decided, [pick p] the case that select
    picks.  The calls are made one after the other: a call that panics, or
    that never finds a case to take, ends the loop, and the peers after it
    are not called. *)
Fixpoint disconnectEach (view : PeerPtr -> PeerRun) (pick : PeerPtr -> nat)
    (ps : list PeerPtr) : list effect * disconnect_result :=
  match ps with
  | [] => ([], AllReturned)
  | p :: rest =>
      match Disconnect_call (view p) (pick p) with
      | None => ([EffDisconnect p discServerQuit], BlockedAt p)
      | Some DiscPanic => ([EffDisconnect p discServerQuit], PanickedAt p)
      | Some _ =>
          let '(effs, r) := disconnectEach view pick rest in
          (EffDisconnect p discServerQuit :: effs, r)
      end
  end.

Definition disconnectAll (view : PeerPtr -> PeerRun) (pick : PeerPtr -> nat)
    (peers : gmap Address PeerPtr) : list effect * disconnect_result :=
  disconnectEach view pick (map snd (map_to_list peers)).

(** The call of Disconnect on [p] returns: a case can proceed and the case
    picked is not the send on a closed channel. *)
Definition call_returns (view : PeerPtr -> PeerRun) (pick : PeerPtr -> nat)
    (p : PeerPtr) : Prop :=
  match Disconnect_call (view p) (pick p) with
  | Some DiscPosted | Some DiscDropped => True
  | Some DiscPanic | None => False
  end.

Inductive drained : Type :=
| Returned (final : gmap Address PeerPtr) (unread : list PeerPtr)
| Waiting (final : gmap Address PeerPtr).   (* parked on <-srv.delpeer *)

(** [for len(peers) > 0 { p := <-srv.delpeer; delete(peers, p.node.ID) }];
    [dels] is what arrives on [srv.delpeer]. *)
Fixpoint drain (nid : PeerPtr -> Address) (peers : gmap Address PeerPtr)
    (dels : list PeerPtr) : list effect * drained :=
  if (0 <? size peers)%nat then
    match dels with
    | [] => ([], Waiting peers)
    | p :: rest =>
        let '(effs, r) := drain nid (delete (nid p) peers) rest in
        (EffRecvDel p :: effs, r)
    end
  else ([], Returned peers dels).

(** How [Server.run] ends after the quit signal. *)
Inductive shutdown_result : Type :=
| ShutDrained (d : drained)      (* the drain loop was reached *)
| ShutPanicked (p : PeerPtr)     (* p.Disconnect panicked: the goroutine dies *)
| ShutBlocked (p : PeerPtr).     (* p.Disconnect does not return *)

(** What follows the [running] loop: disconnect everybody, then drain.  The
    drain loop is reached only when every call of Disconnect has returned. *)
Definition shutdown (nid : PeerPtr -> Address) (view : PeerPtr -> PeerRun)
    (pick : PeerPtr -> nat) (peers : gmap Address PeerPtr)
    (dels : list PeerPtr) : list effect * shutdown_result :=
  match disconnectAll view pick peers with
  | (effs, AllReturned) =>
      let '(effs2, r) := drain nid peers dels in
      (effs ++ effs2, ShutDrained r)
  | (effs, PanickedAt p) => (effs, ShutPanicked p)
  | (effs, BlockedAt p) => (effs, ShutBlocked p)
  end.

(** [Server.run]: [evs] arrive before the quit signal, [dels] after it. *)
Definition Server_run (nid : PeerPtr -> Address) (kad : list Node)
    (view : PeerPtr -> PeerRun) (pick : PeerPtr -> nat)
    (peers : gmap Address PeerPtr) (evs : list event) (dels : list PeerPtr)
    : list effect * shutdown_result :=
  let '(peers1, effs1) := serve nid kad peers evs in
  let '(effs2, r) := shutdown nid view pick peers1 dels in
  (effs1 ++ effs2, r).

(** The peer map after the drain loop has taken [ds] from [srv.delpeer]. *)
Definition after_dels (nid : PeerPtr -> Address) (peers : gmap Address PeerPtr)
    (ds : list PeerPtr) : gmap Address PeerPtr :=
  foldl (fun m p => delete (nid p) m) peers ds.

(** Every entry of the peer map sits under the node ID of its peer. *)
Definition keyed_by_node (nid : PeerPtr -> Address) (peers : gmap Address PeerPtr) : Prop :=
  forall k p, peers !! k = Some p -> nid p = k.

(** ** The code table the handshake is specified to build

    The second definition of the table, following the specification's words:
    the capabilities both ends advertise, sorted by capability string, take
    the codes from the base code on. *)

Definition cap_le (X : Externals) (a b : Cap) : Prop :=
  String.leb (Cap_String X a) (Cap_String X b) = true.

Global Instance cap_le_dec (X : Externals) (a b : Cap) : Decision (cap_le X a b).
Proof. unfold cap_le. apply _. Defined.

Fixpoint spec_assign (X : Externals) (cs : list Cap) (code : Z) (cm : gmap string Z)
    : gmap string Z :=
  match cs with
  | [] => cm
  | c :: rest => spec_assign X rest (code + 1) (<[Cap_String X c := code]> cm)
  end.

Definition spec_capMap (X : Externals) (mine theirs : list Cap) : gmap string Z :=
  let common := filter (fun c : Cap => c ∈ theirs) mine in
  spec_assign X (merge_sort (cap_le X) common) (baseProtoCode X) ∅.

(** ** A concrete instance of the externals, for the worked examples *)

Definition sample_Cap_String (c : Cap) : string :=
  (cap_Name c +:+ "/" +:+ pretty (cap_Version c))%string.

Definition sampleX : Externals :=
  {| ctlProtoCode := 1; baseProtoCode := 2;
     ctlMsgProtoHandshake := 10; ctlMsgDiscCode := 4;
     ctlMsgPingCode := 3; ctlMsgPongCode := 5;
     nodeIDLen := 20;
     Cap_String := sample_Cap_String;
     HexToAddress := fun _ => repeat 7 20;
     Serialize := fun h => inr [Z.of_nat (length (caps h)); nounce h mod 256];
     Deserialize := fun _ _ => None |}.

Definition chain1 : Protocol := {| Name := "chain"; Version := 1 |}.
Definition tx1 : Protocol := {| Name := "tx"; Version := 1 |}.
Definition light1 : Protocol := {| Name := "light"; Version := 1 |}.

Definition open_conn (incoming : list Z) : Conn :=
  {| rbuf := incoming; wbuf := []; wroom := None; isClosed := false |}.

(** The connection [c] with [r] as the bytes still to be read. *)
Definition with_rbuf (c : Conn) (r : list Z) : Conn :=
  {| rbuf := r; wbuf := wbuf c; wroom := wroom c; isClosed := isClosed c |}.

(** A node whose ID is the zero value of the handshake's node-ID field. *)
Definition zero_node : Node := {| ID := repeat 0 20; IP := [10; 0; 0; 9]; UDPPort := 9000 |}.

Definition nodeB : Node := {| ID := repeat 7 20; IP := [10; 0; 0; 2]; UDPPort := 9000 |}.

Definition srvA (snapshot : list Node) : Server :=
  {| MyNodeID := "0a"; Protocols := [chain1; tx1]; kadDB := snapshot; peers := ∅ |}.

(** The bytes of a frame that carries [payload] under the given codes. *)
Definition frame_bytes (pcode mcode : Z) (pl : list Z) : list Z :=
  wire_bytes {| protoCode := pcode;
                message := {| Message.size := Z.of_nat (length pl);
                              Message.msgCode := mcode; Message.payload := pl;
                              Message.ReceivedAt := 0; Message.CurPeer := None |} |}.

(** A peer past its handshake, about to be run. *)
Definition fresh_peer (c : Conn) : Peer :=
  {| conn := c; node := Some nodeB; created := 1000; err := None;
     closed := ChanOpen; disc := ChanOpen;
     protoMap := {[ 2 := tx1 ]}; capMap := {[ "tx/1"%string := 2 ]} |}.

Definition parked (c : Conn) : PeerRun :=
  {| peer := fresh_peer c; pc := AtSelect; writeErr := []; readErr := [] |}.

(** Two sample heaps: every peer under the NodeID [[5]], and every peer under
    a NodeID of its own. *)
Definition same_node (_ : PeerPtr) : Address := [5].
Definition own_node (p : PeerPtr) : Address := [Z.of_nat p].

(** Two peers, each under the NodeID [own_node] gives it. *)
Definition two_peers : gmap Address PeerPtr := {[ [1] := 1%nat; [2] := 2%nat ]}.

(** A peer whose [run] has received a Disconnect and has returned. *)
Definition returned_peer : PeerRun :=
  run_exec 4 (with_peer (parked (open_conn []))
                (set_err (fresh_peer (open_conn [])) (Some ErrDiscRecved))
                AtCloseClosed).

(** A peer whose [run] has not reached its select yet. *)
Definition starting_peer : PeerRun :=
  with_peer (parked (open_conn [])) (fresh_peer (open_conn [])) AtAnnounce.

(** Peer 1 has returned from [run] and waits to send on [srv.delpeer]; the
    other peers are parked in their select. *)
Definition one_returned (p : PeerPtr) : PeerRun :=
  if (p =? 1)%nat then returned_peer else parked (open_conn []).

(** Peer 1 has not reached its select; the other peers are parked. *)
Definition one_starting (p : PeerPtr) : PeerRun :=
  if (p =? 1)%nat then starting_peer else parked (open_conn []).

Definition sample_amb : Ambient :=
  {| monotime_Now := 1000; time_Now := 2000; rand_Uint32 := 77; self_ptr := 1%nat |}.

(** An inbound handshake whose reply travels under protoCode 7, msgCode 99. *)
Definition non_control_reply : SetupResult :=
  setupConn sampleX (srvA [zero_node]) (open_conn (frame_bytes 7 99 [1; 2]))
    inboundConn None sample_amb.

(** A three-byte frame under protoCode 2, msgCode 258. *)
Definition sample_frame : msg :=
  {| protoCode := 2;
     message := {| Message.size := 3; Message.msgCode := 258;
                   Message.payload := [1; 2; 3]; Message.ReceivedAt := 0;
                   Message.CurPeer := None |} |}.

(** ** Further definitions: byte streams and the reader loop *)

(** Every element is a byte. *)
Definition is_bytes (l : list Z) : Prop := Forall (fun b => 0 <= b < 256) l.

(** Two frames with the same header fields and payload; the receive time and
    the peer reference are left aside. *)
Definition same_frame (m m' : msg) : Prop :=
  protoCode m' = protoCode m /\
  Message.size (message m') = Message.size (message m) /\
  Message.msgCode (message m') = Message.msgCode (message m) /\
  Message.payload (message m') = Message.payload (message m).

(** The connection [c] with another write side. *)
Definition with_wside (c : Conn) (w : list Z) (room : option nat) : Conn :=
  {| rbuf := rbuf c; wbuf := w; wroom := room; isClosed := isClosed c |}.

(** [readLoop]: frames are received and handled until one of the two fails;
    the error then goes on [errc] and the loop ends.  [now i] and [fwd i] are
    the clock and the branch of the inner select of [handle] at round [i].
    The result lists the frames handled, in order, and tells whether the loop
    has ended within [fuel] rounds. *)
Fixpoint readLoop (X : Externals) (fuel : nat) (s : PeerRun) (now : nat -> Z)
    (self : PeerPtr) (fwd : nat -> bool) (i : nat)
    : list (msg * handled) * PeerRun * bool :=
  match fuel with
  | O => ([], s, false)
  | S fuel' =>
      match recvRawMsg (conn (peer s)) (now i) self with
      | (c1, inl e) =>
          ([], {| peer := set_conn (peer s) c1; pc := pc s; writeErr := writeErr s;
                  readErr := readErr s ++ [Some e] |}, true)
      | (c1, inr msgRecv) =>
          let h := handle X (peer s) msgRecv (fwd i) in
          match handle_err h with
          | Some e =>
              ([(msgRecv, h)],
               {| peer := set_conn (peer s) c1; pc := pc s; writeErr := writeErr s;
                  readErr := readErr s ++ [Some e] |}, true)
          | None =>
              let '(hs, s', ended) :=
                readLoop X fuel' (with_peer s (set_conn (peer s) c1) (pc s))
                  now self fwd (S i) in
              ((msgRecv, h) :: hs, s', ended)
          end
      end
  end.

(** The capability strings of a list of protocols, in order. *)
Definition cap_strings (X : Externals) (protos : list Protocol) : list string :=
  map (fun proto => Cap_String X (cap proto)) protos.

(** A peer that carries the tables [assignCodes] builds for [protos]. *)
Definition peer_with_tables (X : Externals) (protos : list Protocol) (base : Z)
    (c : Conn) : Peer :=
  {| conn := c; node := None; created := 0; err := None;
     closed := ChanOpen; disc := ChanOpen;
     protoMap := (assignCodes X protos base ∅ ∅).1;
     capMap := (assignCodes X protos base ∅ ∅).2 |}.

(** The frame [sendCtlMsg] builds. *)
Definition ctl_frame (X : Externals) (msgCode : Z) : msg :=
  {| protoCode := ctlProtoCode X;
     message := {| Message.size := 0; Message.msgCode := msgCode;
                   Message.payload := []; Message.ReceivedAt := 0;
                   Message.CurPeer := None |} |}.

(** A healthy connection: open, with a write side that does not fail. *)
Definition healthy (c : Conn) : Prop := isClosed c = false /\ wroom c = None.

(** ** Further definitions: the states a running peer goes through *)

(** The states reachable from a peer that enters [run] as [setupConn] hands
    it over, with both channels and the connection open: [run] takes a step,
    the pinger fires, the reader completes a round, or somebody calls
    [Disconnect] and one of its cases is taken. *)
Inductive reachable (X : Externals) : PeerRun -> Prop :=
| reach_start (p : Peer) :
    closed p = ChanOpen -> disc p = ChanOpen -> isClosed (conn p) = false ->
    reachable X {| peer := p; pc := AtAnnounce; writeErr := []; readErr := [] |}
| reach_run (s s' : PeerRun) :
    reachable X s -> s' ∈ run_step s -> reachable X s'
| reach_ping (s : PeerRun) :
    reachable X s -> reachable X (pingLoop_fire X s)
| reach_read (s : PeerRun) (now : Z) (self : PeerPtr) (fwd : bool) :
    reachable X s -> reachable X (readLoop_iter X s now self fwd).1
| reach_disc (s s' : PeerRun) (reason : Z) (o : disc_outcome) :
    reachable X s -> (o, s') ∈ Disconnect s reason -> reachable X s'.

(** Where the three closes stand at each point of [run]. *)
Definition teardown_order (s : PeerRun) : Prop :=
  match pc s with
  | AtAnnounce | AtSelect | AtCloseClosed =>
      closed (peer s) = ChanOpen /\ disc (peer s) = ChanOpen /\
      isClosed (conn (peer s)) = false
  | AtConnClose =>
      closed (peer s) = ChanClosed /\ disc (peer s) = ChanOpen /\
      isClosed (conn (peer s)) = false
  | AtCloseDisc =>
      closed (peer s) = ChanClosed /\ disc (peer s) = ChanOpen /\
      isClosed (conn (peer s)) = true
  | AtWait | AtReturn =>
      closed (peer s) = ChanClosed /\ disc (peer s) = ChanClosed /\
      isClosed (conn (peer s)) = true
  end.

(** ** Further definitions: handshake frame, Start, the accept loop *)

(** The handshake message [setupConn] serializes. *)
Definition local_handshake (X : Externals) (srv : Server) (amb : Ambient) : protoHandShake :=
  {| caps := map cap (Protocols srv); nounce := rand_Uint32 amb;
     nodeID := copy (repeat 0 (nodeIDLen X)) (HexToAddress X (MyNodeID srv)) |}.

(** The frame [setupConn] wraps the serialized handshake in. *)
Definition handshake_frame (X : Externals) (buffer : list Z) : msg :=
  {| protoCode := ctlProtoCode X;
     message := {| Message.size := uint32 (Z.of_nat (length buffer));
                   Message.msgCode := ctlMsgProtoHandshake X;
                   Message.payload := buffer;
                   Message.ReceivedAt := 0; Message.CurPeer := None |} |}.

(** Errors of [Start]; [ErrListen] carries what [net.Listen] returned. *)
Inductive start_error : Type :=
| ErrAlreadyRunning     (* "server already running" *)
| ErrCreateLogger       (* "p2p Create logger error" *)
| ErrListen (e : error).

(** The goroutines [Start] launches.  The goroutine of a protocol is known
    by the round of the loop over [srv.Protocols] that launched it: its
    closure does not hold a protocol, it reads the variable of the loop when
    it runs. *)
Inductive task : Type :=
| TaskListenLoop
| TaskProtocol (round : nat)
| TaskRun.

(** What the variable [proto] of the loop holds while the loop is in round
    [at], and for good once the loop is over (any [at] from the last round
    on). *)
Definition proto_at (protos : list Protocol) (at_round : nat) : option Protocol :=
  protos !! Nat.min at_round (pred (length protos)).

(** The goroutine launched in [round] reads [proto] in that round or later. *)
Definition closure_reads (protos : list Protocol) (round : nat) (p : Protocol) : Prop :=
  exists at_round, (round <= at_round)%nat /\ proto_at protos at_round = Some p.

(** The fields of [Server] that [Start] writes. *)
Record ServerLife : Type := mkLife {
  running : bool;
  has_log : bool;
  life_peers : option (gmap Address PeerPtr);   (* None: the nil map *)
  has_channels : bool;                          (* quit, addpeer, delpeer *)
  kad_started : bool;
  listening : bool;
  tasks : list task
}.

(** [Start].  [logger_ok] tells whether [log.GetLogger] returned a logger,
    [listen] what [net.Listen] returned (None: a listener). *)
Definition Start (protos : list Protocol) (logger_ok : bool) (listen : option error)
    (st : ServerLife) : ServerLife * option start_error :=
  if running st then (st, Some ErrAlreadyRunning)
  else if negb logger_ok then
    ({| running := false; has_log := false; life_peers := life_peers st;
        has_channels := has_channels st; kad_started := kad_started st;
        listening := listening st; tasks := tasks st |}, Some ErrCreateLogger)
  else
    match listen with
    | Some e =>
        ({| running := true; has_log := true; life_peers := Some ∅;
            has_channels := true; kad_started := true;
            listening := listening st; tasks := tasks st |}, Some (ErrListen e))
    | None =>
        ({| running := true; has_log := true; life_peers := Some ∅;
            has_channels := true; kad_started := true; listening := true;
            tasks := tasks st ++ [TaskListenLoop]
                     ++ map TaskProtocol (seq 0 (length protos))
                     ++ [TaskRun] |}, None)
    end.

(** A server value before its first [Start]. *)
Definition new_server : ServerLife :=
  {| running := false; has_log := false; life_peers := None; has_channels := false;
     kad_started := false; listening := false; tasks := [] |}.

Definition maxAcceptConns : Z := 50.

(** The number of handshake slots of [listenLoop]. *)
Definition listen_tokens (MaxPendingPeers : Z) : Z :=
  if 0 <? MaxPendingPeers then MaxPendingPeers else maxAcceptConns.

Inductive listen_pc : Type :=
| AtSlot          (* at <-slots *)
| AtAccept        (* holding a slot, in srv.listener.Accept() *)
| ListenReturned.

(** [slots] is the number of tokens in the channel, [handshaking] the number
    of goroutines between their [setupConn] and their [slots <- struct{}{}]. *)
Record Listener : Type := mkListener {
  slots : nat;
  handshaking : nat;
  lpc : listen_pc
}.

Inductive listen_event : Type :=
| SlotTaken            (* <-slots yields a token *)
| Accepted             (* Accept returns a connection: go setupConn *)
| AcceptTemporary      (* Accept returns a temporary error: continue *)
| AcceptFailed         (* Accept returns another error: return *)
| HandshakeReturned.   (* a handshake goroutine puts its token back *)

(** One step of the accept loop and its goroutines; [None] when the event
    cannot happen in the state. *)
Definition listen_step (l : Listener) (ev : listen_event) : option Listener :=
  match ev, lpc l with
  | SlotTaken, AtSlot =>
      match slots l with
      | O => None
      | S n => Some {| slots := n; handshaking := handshaking l; lpc := AtAccept |}
      end
  | Accepted, AtAccept =>
      Some {| slots := slots l; handshaking := S (handshaking l); lpc := AtSlot |}
  | AcceptTemporary, AtAccept => Some l
  | AcceptFailed, AtAccept =>
      Some {| slots := slots l; handshaking := handshaking l; lpc := ListenReturned |}
  | HandshakeReturned, k =>
      match handshaking l with
      | O => None
      | S n => Some {| slots := S (slots l); handshaking := n; lpc := k |}
      end
  | _, _ => None
  end.

Fixpoint listen_run (l : Listener) (evs : list listen_event) : option Listener :=
  match evs with
  | [] => Some l
  | ev :: rest =>
      match listen_step l ev with
      | Some l' => listen_run l' rest
      | None => None
      end
  end.

(** [listenLoop] after it has filled the channel. *)
Definition listenLoop_start (MaxPendingPeers : Z) : Listener :=
  {| slots := Z.to_nat (listen_tokens MaxPendingPeers); handshaking := 0; lpc := AtSlot |}.

(** The token the loop itself holds. *)
Definition held (l : Listener) : nat :=
  match lpc l with AtSlot => 0 | _ => 1 end.

(** ** Further sample values *)

Global Instance Protocol_eq_dec : EqDecision Protocol.
Proof. solve_decision. Defined.

Definition node5 : Node := {| ID := [5]; IP := [10; 0; 0; 5]; UDPPort := 9000 |}.

(** A frame for a protocol code nobody registered. *)
Definition stray_frame : msg :=
  {| protoCode := 9;
     message := {| Message.size := 1; Message.msgCode := 7;
                   Message.payload := [42]; Message.ReceivedAt := 0;
                   Message.CurPeer := None |} |}.

(** A peer entering [run]. *)
Definition entering (c : Conn) : PeerRun :=
  {| peer := fresh_peer c; pc := AtAnnounce; writeErr := []; readErr := [] |}.

(** The state of [parked c] after a Disconnect has been received. *)
Definition disconnected (c : Conn) : PeerRun :=
  with_peer (parked c) (set_err (fresh_peer c) (Some ErrDiscRecved)) AtCloseClosed.

(** * Properties *)

(** ** Byte-order lemmas *)

Lemma testbit_255 (n : Z) : 0 <= n -> Z.testbit 255 n = (n <? 8).
Proof.
  intros Hn. change 255 with (Z.ones 8).
  destruct (Z.ltb_spec n 8).
  - apply Z.ones_spec_low; lia.
  - apply Z.ones_spec_high; lia.
Qed.

Lemma testbit_above (v k n : Z) :
  0 <= v < 2 ^ k -> 0 <= k <= n -> Z.testbit v n = false.
Proof.
  intros Hv Hk.
  destruct (Z.eq_dec v 0) as [->|Hne]; [apply Z.bits_0|].
  apply Z.bits_above_log2; [lia|].
  assert (Z.log2 v < k) by (apply Z.log2_lt_pow2; lia). lia.
Qed.

Lemma Uint32_PutUint32 (v : Z) :
  0 <= v < 2 ^ 32 -> BigEndian.Uint32 (BigEndian.PutUint32 v) = v.
Proof.
  intros Hv. unfold BigEndian.Uint32, BigEndian.PutUint32, idx, uint8; simpl nth.
  apply Z.bits_inj'; intros n Hn.
  rewrite !Z.lor_spec.
  destruct (Z.ltb_spec n 8); [|destruct (Z.ltb_spec n 16);
    [|destruct (Z.ltb_spec n 24); [|destruct (Z.ltb_spec n 32)]]].
  - rewrite !Z.shiftl_spec_low by lia.
    rewrite Z.land_spec, testbit_255 by lia.
    replace (n <? 8) with true by (symmetry; apply Z.ltb_lt; lia).
    now rewrite andb_true_r, !orb_false_r.
  - rewrite (Z.shiftl_spec_low _ 16), (Z.shiftl_spec_low _ 24) by lia.
    rewrite Z.shiftl_spec, !Z.land_spec, Z.shiftr_spec, !testbit_255 by lia.
    replace (n <? 8) with false by (symmetry; apply Z.ltb_ge; lia).
    replace (n - 8 <? 8) with true by (symmetry; apply Z.ltb_lt; lia).
    replace (n - 8 + 8) with n by lia.
    now rewrite andb_false_r, andb_true_r, !orb_false_r.
  - rewrite (Z.shiftl_spec_low _ 24) by lia.
    rewrite !Z.shiftl_spec, !Z.land_spec, !Z.shiftr_spec, !testbit_255 by lia.
    replace (n <? 8) with false by (symmetry; apply Z.ltb_ge; lia).
    replace (n - 8 <? 8) with false by (symmetry; apply Z.ltb_ge; lia).
    replace (n - 16 <? 8) with true by (symmetry; apply Z.ltb_lt; lia).
    replace (n - 16 + 16) with n by lia.
    now rewrite !andb_false_r, andb_true_r, !orb_false_r.
  - rewrite !Z.shiftl_spec, !Z.land_spec, !Z.shiftr_spec, !testbit_255 by lia.
    replace (n <? 8) with false by (symmetry; apply Z.ltb_ge; lia).
    replace (n - 8 <? 8) with false by (symmetry; apply Z.ltb_ge; lia).
    replace (n - 16 <? 8) with false by (symmetry; apply Z.ltb_ge; lia).
    replace (n - 24 <? 8) with true by (symmetry; apply Z.ltb_lt; lia).
    replace (n - 24 + 24) with n by lia.
    now rewrite !andb_false_r, andb_true_r.
  - rewrite !Z.shiftl_spec, !Z.land_spec, !Z.shiftr_spec, !testbit_255 by lia.
    replace (n <? 8) with false by (symmetry; apply Z.ltb_ge; lia).
    replace (n - 8 <? 8) with false by (symmetry; apply Z.ltb_ge; lia).
    replace (n - 16 <? 8) with false by (symmetry; apply Z.ltb_ge; lia).
    replace (n - 24 <? 8) with false by (symmetry; apply Z.ltb_ge; lia).
    rewrite !andb_false_r. simpl.
    symmetry. apply (testbit_above v 32); lia.
Qed.

Lemma Uint16_PutUint16 (v : Z) :
  0 <= v < 2 ^ 16 -> BigEndian.Uint16 (BigEndian.PutUint16 v) = v.
Proof.
  intros Hv. unfold BigEndian.Uint16, BigEndian.PutUint16, idx, uint8; simpl nth.
  apply Z.bits_inj'; intros n Hn.
  rewrite !Z.lor_spec.
  destruct (Z.ltb_spec n 8); [|destruct (Z.ltb_spec n 16)].
  - rewrite !Z.shiftl_spec_low by lia.
    rewrite Z.land_spec, testbit_255 by lia.
    replace (n <? 8) with true by (symmetry; apply Z.ltb_lt; lia).
    now rewrite andb_true_r, !orb_false_r.
  - rewrite Z.shiftl_spec, !Z.land_spec, Z.shiftr_spec, !testbit_255 by lia.
    replace (n <? 8) with false by (symmetry; apply Z.ltb_ge; lia).
    replace (n - 8 <? 8) with true by (symmetry; apply Z.ltb_lt; lia).
    replace (n - 8 + 8) with n by lia.
    now rewrite andb_false_r, andb_true_r.
  - rewrite Z.shiftl_spec, !Z.land_spec, Z.shiftr_spec, !testbit_255 by lia.
    replace (n <? 8) with false by (symmetry; apply Z.ltb_ge; lia).
    replace (n - 8 <? 8) with false by (symmetry; apply Z.ltb_ge; lia).
    rewrite !andb_false_r. simpl.
    symmetry. apply (testbit_above v 16); lia.
Qed.

Lemma uint8_shiftr (v k : Z) : 0 <= k -> uint8 (Z.shiftr v k) = v / 2 ^ k mod 256.
Proof.
  intros Hk. unfold uint8. change 255 with (Z.ones 8).
  rewrite Z.land_ones by lia. now rewrite Z.shiftr_div_pow2 by lia.
Qed.

Lemma uint8_mod (v : Z) : uint8 v = v mod 256.
Proof. unfold uint8. change 255 with (Z.ones 8). now rewrite Z.land_ones by lia. Qed.

(** ** Framed transport *)

Lemma conn_Write_ok (c c' : Conn) (b : list Z) :
  conn_Write c b = (c', None) ->
  wbuf c' = wbuf c ++ b /\ rbuf c' = rbuf c /\ isClosed c' = false.
Proof.
  unfold conn_Write.
  destruct (isClosed c); [discriminate|].
  destruct (wroom c) as [n|].
  - destruct (length b <=? n)%nat; [|discriminate].
    intros [= <-]. now cbn.
  - intros [= <-]. now cbn.
Qed.

Lemma sendRawMsg_ok (c c' : Conn) (m : msg) :
  sendRawMsg c m = (c', None) ->
  wbuf c' = wbuf c ++ wire_bytes m /\ isClosed c' = false.
Proof.
  unfold sendRawMsg, wire_bytes.
  destruct (conn_Write c _) as [c1 [e1|]] eqn:H1; [discriminate|].
  destruct (conn_Write c1 _) as [c2 [e2|]] eqn:H2; [discriminate|].
  intros [= <-].
  apply conn_Write_ok in H1 as (W1 & _ & _).
  apply conn_Write_ok in H2 as (W2 & _ & C2).
  split; [|exact C2].
  rewrite W2, W1. now rewrite <- !app_assoc.
Qed.

(** On a healthy connection the write goes through. *)
Lemma sendRawMsg_healthy (c : Conn) (m : msg) :
  isClosed c = false -> wroom c = None ->
  exists c', sendRawMsg c m = (c', None).
Proof.
  intros Hc Hw. unfold sendRawMsg, conn_Write. rewrite Hc, Hw. cbn.
  eexists. reflexivity.
Qed.

Lemma recvRawMsg_wire (m : msg) (cr : Conn) (rest : list Z) (now : Z) (p : PeerPtr) :
  frame_ok m ->
  isClosed cr = false ->
  rbuf cr = wire_bytes m ++ rest ->
  exists cr' m',
    recvRawMsg cr now p = (cr', inr m') /\
    rbuf cr' = rest /\
    protoCode m' = protoCode m /\
    Message.size (message m') = Message.size (message m) /\
    Message.msgCode (message m') = Message.msgCode (message m) /\
    Message.payload (message m') = Message.payload (message m).
Proof.
  intros (Hs & Hp & Hm & Hl) Hc Hr.
  destruct m as [pcode [sz mcode pl rat cp]]; cbn in *.
  unfold recvRawMsg, ReadFull. rewrite Hc, Hr.
  unfold wire_bytes; cbn [protoCode message Message.size Message.msgCode Message.payload].
  set (h32 := BigEndian.PutUint32 sz).
  set (h16a := BigEndian.PutUint16 pcode).
  set (h16b := BigEndian.PutUint16 mcode).
  assert (E32 : BigEndian.Uint32 h32 = sz) by (apply Uint32_PutUint32; lia).
  assert (E16a : BigEndian.Uint16 h16a = pcode) by (apply Uint16_PutUint16; lia).
  assert (E16b : BigEndian.Uint16 h16b = mcode) by (apply Uint16_PutUint16; lia).
  unfold BigEndian.PutUint32 in h32. unfold BigEndian.PutUint16 in h16a, h16b.
  subst h32 h16a h16b.
  cbn [app length Nat.leb firstn skipn slice Nat.sub rbuf wbuf wroom isClosed].
  repeat rewrite firstn_O. repeat rewrite skipn_O.
  rewrite E32, E16a, E16b.
  destruct (Z.to_nat sz) as [|k] eqn:Hk.
  - destruct pl as [|b pl]; [|cbn [length] in Hl; lia].
    do 2 eexists. split; [reflexivity|]. now cbn.
  - cbn [isClosed rbuf].
    assert (Hlen : length pl = S k) by lia.
    replace (S k <=? length (pl ++ rest))%nat with true
      by (symmetry; apply Nat.leb_le; rewrite length_app; lia).
    do 2 eexists. split; [reflexivity|]. cbn.
    rewrite <- Hlen.
    split; [now rewrite skipn_app, skipn_all, Nat.sub_diag|].
    repeat split.
    now rewrite firstn_app, firstn_all, Nat.sub_diag, firstn_O, app_nil_r.
Qed.

(** C4: a frame written by [sendRawMsg] and read back by [recvRawMsg] from
    the bytes that were written comes out with the same size, protoCode,
    msgCode and payload, for every frame whose fields fit their widths and
    whose size is its payload length (size 0 and an empty payload included);
    the eight header bytes are the three fields in big-endian order. *)
Theorem sendRawMsg_recvRawMsg_roundtrip
    (m : msg) (cw cw' cr : Conn) (rest : list Z) (now : Z) (p : PeerPtr) :
  frame_ok m ->
  sendRawMsg cw m = (cw', None) ->
  isClosed cr = false ->
  rbuf cr = skipn (length (wbuf cw)) (wbuf cw') ++ rest ->
  firstn 8 (skipn (length (wbuf cw)) (wbuf cw')) =
    [ Message.size (message m) / 2 ^ 24 mod 256;
      Message.size (message m) / 2 ^ 16 mod 256;
      Message.size (message m) / 2 ^ 8 mod 256;
      Message.size (message m) mod 256;
      protoCode m / 2 ^ 8 mod 256; protoCode m mod 256;
      Message.msgCode (message m) / 2 ^ 8 mod 256;
      Message.msgCode (message m) mod 256 ] /\
  skipn 8 (skipn (length (wbuf cw)) (wbuf cw')) = Message.payload (message m) /\
  exists cr' m',
    recvRawMsg cr now p = (cr', inr m') /\
    rbuf cr' = rest /\
    protoCode m' = protoCode m /\
    Message.size (message m') = Message.size (message m) /\
    Message.msgCode (message m') = Message.msgCode (message m) /\
    Message.payload (message m') = Message.payload (message m).
Proof.
  intros Hok Hsend Hc Hr.
  apply sendRawMsg_ok in Hsend as (Hw & _).
  assert (Hbytes : skipn (length (wbuf cw)) (wbuf cw') = wire_bytes m).
  { rewrite Hw, skipn_app, skipn_all, Nat.sub_diag. reflexivity. }
  rewrite Hbytes in *.
  split; [|split].
  - unfold wire_bytes, BigEndian.PutUint32, BigEndian.PutUint16. cbn [app firstn].
    rewrite !uint8_shiftr, !uint8_mod by lia. reflexivity.
  - reflexivity.
  - now apply recvRawMsg_wire.
Qed.

(** The sample frame, written to a fresh connection and read back with two
    more bytes behind it. *)
Lemma sendRawMsg_recvRawMsg_roundtrip_witness :
  exists cr' m',
    recvRawMsg (open_conn (wbuf (sendRawMsg (open_conn []) sample_frame).1 ++ [9; 9]))
      5 1%nat = (cr', inr m') /\
    rbuf cr' = [9; 9] /\
    protoCode m' = protoCode sample_frame /\
    Message.size (message m') = Message.size (message sample_frame) /\
    Message.msgCode (message m') = Message.msgCode (message sample_frame) /\
    Message.payload (message m') = Message.payload (message sample_frame).
Proof.
  refine (proj2 (proj2 (sendRawMsg_recvRawMsg_roundtrip sample_frame (open_conn [])
            (sendRawMsg (open_conn []) sample_frame).1
            (open_conn (wbuf (sendRawMsg (open_conn []) sample_frame).1 ++ [9; 9]))
            [9; 9] 5 1%nat _ _ _ _))).
  - unfold frame_ok; cbn; lia.
  - reflexivity.
  - reflexivity.
  - reflexivity.
Defined.

(** ** Server loop: admission and removal *)

Section ServerLoop.

Variable nid : PeerPtr -> Address.
Variable kad : list Node.

Lemma serve_event_keyed (peers : gmap Address PeerPtr) (ev : event) :
  keyed_by_node nid peers -> keyed_by_node nid (serve_event nid peers ev).1.
Proof.
  intros Hk. destruct ev as [|c|pd]; cbn.
  - exact Hk.
  - destruct (peers !! nid c) eqn:E; cbn; [exact Hk|].
    intros k p. rewrite lookup_insert. case_decide.
    + intros [= <-]. congruence.
    + apply Hk.
  - destruct (peers !! nid pd) as [cur|] eqn:E; cbn; [|exact Hk].
    case_bool_decide; cbn; [|exact Hk].
    intros k p. rewrite lookup_delete. case_decide; [discriminate|apply Hk].
Qed.

Lemma serve_keyed (evs : list event) (peers : gmap Address PeerPtr) :
  keyed_by_node nid peers -> keyed_by_node nid (serve nid kad peers evs).1.
Proof.
  revert peers. induction evs as [|ev evs IH]; intros peers Hk; cbn; [exact Hk|].
  pose proof (serve_event_keyed peers ev Hk) as H1.
  destruct (serve_event nid peers ev) as [peers1 eff]; cbn in H1.
  specialize (IH peers1 H1).
  destruct (serve nid kad peers1 evs) as [peers2 effs]; cbn in *. exact IH.
Qed.

Lemma keyed_empty : keyed_by_node nid ∅.
Proof. intros k p. rewrite lookup_empty. discriminate. Qed.

(** C5: whatever add-peer and remove-peer events (and ticks) the loop has
    processed since the map was created, no two entries of the peer map
    carry the same NodeID; an add-peer event whose NodeID is mapped leaves
    the map as it is and calls Disconnect on the new peer with reason 10,
    and one whose NodeID is free puts the new peer under its NodeID and
    touches no other entry. *)
Theorem addpeer_no_duplicate_node (evs : list event) (c : PeerPtr) :
  let peers' := (serve nid kad ∅ evs).1 in
  (forall k1 k2 p q,
      peers' !! k1 = Some p -> peers' !! k2 = Some q -> nid p = nid q ->
      k1 = k2 /\ p = q) /\
  NoDup (map_to_list peers').*1 /\
  (is_Some (peers' !! nid c) ->
     serve_event nid peers' (AddPeer c) = (peers', [EffDisconnect c 10])) /\
  (peers' !! nid c = None ->
     (serve_event nid peers' (AddPeer c)).2 = [] /\
     (serve_event nid peers' (AddPeer c)).1 !! nid c = Some c /\
     forall k, k <> nid c ->
       (serve_event nid peers' (AddPeer c)).1 !! k = peers' !! k).
Proof.
  intros peers'.
  assert (Hk : keyed_by_node nid peers') by (apply serve_keyed, keyed_empty).
  split; [|split; [|split]].
  - intros k1 k2 p q H1 H2 Hn.
    pose proof (Hk _ _ H1) as E1. pose proof (Hk _ _ H2) as E2.
    assert (k1 = k2) as -> by congruence.
    split; congruence.
  - apply NoDup_fst_map_to_list.
  - intros [x Hx]. cbn. now rewrite Hx.
  - intros Hn. cbn. rewrite Hn. cbn. split; [reflexivity|]. split.
    + apply lookup_insert_eq.
    + intros k Hne. now apply lookup_insert_ne.
Qed.

(** The delpeer case of the running loop: a remove-peer event deletes the
    entry under the event's NodeID exactly when the peer mapped there is the
    peer of the event; any other remove-peer event (no entry, or an entry
    holding another instance) leaves the map as it is. *)
Theorem delpeer_same_instance (peers : gmap Address PeerPtr) (pd : PeerPtr) :
  (peers !! nid pd = Some pd ->
     serve_event nid peers (DelPeer pd) = (delete (nid pd) peers, [])) /\
  (peers !! nid pd <> Some pd ->
     serve_event nid peers (DelPeer pd) = (peers, [])) /\
  (peers !! nid pd = Some pd <->
     is_Some (peers !! nid pd) /\
     (serve_event nid peers (DelPeer pd)).1 !! nid pd = None).
Proof.
  cbn. destruct (peers !! nid pd) as [cur|] eqn:E.
  - case_bool_decide as Hc.
    + subst cur. split; [reflexivity|]. split; [congruence|].
      split; [intros _|reflexivity].
      split; [eauto|]. cbn. apply lookup_delete_eq.
    + split; [intros [= ->]; congruence|]. split; [reflexivity|].
      split; [intros [= ->]; congruence|].
      intros [_ H]. cbn in H. congruence.
  - split; [discriminate|]. split; [reflexivity|].
    split; [discriminate|]. intros [[x Hx] _]. discriminate.
Qed.

End ServerLoop.

(** Two peers claim the NodeID [[5]]: the first is admitted, the second is
    told to disconnect with reason 10. *)
Lemma addpeer_no_duplicate_node_witness :
  serve_event same_node (serve same_node [] ∅ [AddPeer 1%nat]).1 (AddPeer 2%nat)
  = ((serve same_node [] ∅ [AddPeer 1%nat]).1, [EffDisconnect 2%nat 10]).
Proof.
  apply (proj1 (proj2 (proj2
           (addpeer_no_duplicate_node same_node [] [AddPeer 1%nat] 2%nat)))).
  vm_compute. eauto.
Defined.

(** A stale instance (address 2) leaves the entry of the current one
    (address 1) in place. *)
Lemma delpeer_same_instance_witness :
  serve_event same_node {[ [5] := 1%nat ]} (DelPeer 2%nat) = ({[ [5] := 1%nat ]}, []).
Proof.
  apply (proj1 (proj2 (delpeer_same_instance same_node {[ [5] := 1%nat ]} 2%nat))).
  vm_compute. discriminate.
Defined.

(** ** Server loop: shutdown *)

Section Shutdown.

Variable nid : PeerPtr -> Address.

Lemma size_pos_nonempty (peers : gmap Address PeerPtr) :
  (0 <? size peers)%nat = true <-> peers <> ∅.
Proof.
  rewrite Nat.ltb_lt. split.
  - intros H ->. rewrite map_size_empty in H. lia.
  - intros H. destruct (size peers) eqn:E; [|lia].
    apply map_size_empty_iff in E. contradiction.
Qed.

Lemma drain_eq (peers : gmap Address PeerPtr) (dels : list PeerPtr) :
  drain nid peers dels =
  if (0 <? size peers)%nat then
    match dels with
    | [] => ([], Waiting peers)
    | p :: rest =>
        (EffRecvDel p :: (drain nid (delete (nid p) peers) rest).1,
         (drain nid (delete (nid p) peers) rest).2)
    end
  else ([], Returned peers dels).
Proof.
  destruct dels as [|p rest]; cbn [drain]; [reflexivity|].
  destruct (0 <? size peers)%nat; [|reflexivity].
  now destruct (drain nid (delete (nid p) peers) rest).
Qed.

(** The drain loop reads a prefix of what arrives, only while the map is
    non-empty, and leaves the map with those NodeIDs deleted. *)
Lemma drain_spec (dels : list PeerPtr) (peers : gmap Address PeerPtr) :
  exists consumed unread,
    dels = consumed ++ unread /\
    (drain nid peers dels).1 = map EffRecvDel consumed /\
    (forall cs x rest, consumed = cs ++ x :: rest -> after_dels nid peers cs <> ∅) /\
    match (drain nid peers dels).2 with
    | Returned final rest =>
        final = ∅ /\ final = after_dels nid peers consumed /\ rest = unread
    | Waiting final =>
        final <> ∅ /\ final = after_dels nid peers consumed /\ unread = []
    end.
Proof.
  revert peers. induction dels as [|p dels IH]; intros peers; rewrite drain_eq.
  - exists [], []. destruct (0 <? size peers)%nat eqn:E; cbn.
    + repeat split; try reflexivity.
      * intros [|] ? ? ?; discriminate.
      * now apply size_pos_nonempty.
    + repeat split; try reflexivity.
      * intros [|] ? ? ?; discriminate.
      * destruct (decide (peers = ∅)) as [->|Hne]; [reflexivity|].
        apply size_pos_nonempty in Hne. congruence.
  - destruct (0 <? size peers)%nat eqn:E.
    + destruct (IH (delete (nid p) peers)) as (cs & un & Hd & Heff & Hpre & Hres).
      exists (p :: cs), un. cbn [fst snd]. split; [now rewrite Hd|].
      split; [cbn; now rewrite Heff|].
      split; [|exact Hres].
      intros [|y cs'] x rest Hc; cbn.
      * now apply size_pos_nonempty.
      * injection Hc as -> ->. now apply (Hpre cs' x rest).
    + exists [], (p :: dels). cbn. repeat split; try reflexivity.
      * intros [|] ? ? ?; discriminate.
      * destruct (decide (peers = ∅)) as [->|Hne]; [reflexivity|].
        apply size_pos_nonempty in Hne. congruence.
Qed.

(** With a remove-peer event for every mapped NodeID on its way, the drain
    loop returns. *)
Lemma drain_returns (dels : list PeerPtr) (peers : gmap Address PeerPtr) :
  (forall k, is_Some (peers !! k) -> k ∈ map nid dels) ->
  exists final rest, (drain nid peers dels).2 = Returned final rest.
Proof.
  revert peers. induction dels as [|p dels IH]; intros peers Hcov; rewrite drain_eq.
  - destruct (0 <? size peers)%nat eqn:E; cbn; [|eauto].
    apply size_pos_nonempty in E.
    destruct (map_choose _ E) as (k & v & Hkv).
    specialize (Hcov k (ex_intro _ v Hkv)). inversion Hcov.
  - destruct (0 <? size peers)%nat eqn:E; cbn [snd]; [|eauto].
    apply IH.
    intros k [v Hv]. rewrite lookup_delete in Hv.
    case_decide as Hd; [discriminate|].
    specialize (Hcov k (ex_intro _ v Hv)). cbn in Hcov.
    apply elem_of_cons in Hcov as [->|Hin]; [congruence|exact Hin].
Qed.

Lemma disconnectEach_returned (view : PeerPtr -> PeerRun) (pick : PeerPtr -> nat)
    (ps : list PeerPtr) :
  Forall (call_returns view pick) ps ->
  disconnectEach view pick ps
    = (map (fun p => EffDisconnect p discServerQuit) ps, AllReturned).
Proof.
  induction 1 as [|p ps Hp _ IH]; [reflexivity|].
  cbn [disconnectEach map]. unfold call_returns in Hp.
  destruct (Disconnect_call (view p) (pick p)) as [[| |]|]; try contradiction;
    now rewrite IH.
Qed.

Lemma disconnectEach_AllReturned (view : PeerPtr -> PeerRun) (pick : PeerPtr -> nat)
    (ps : list PeerPtr) (effs : list effect) :
  disconnectEach view pick ps = (effs, AllReturned) ->
  Forall (call_returns view pick) ps /\
  effs = map (fun p => EffDisconnect p discServerQuit) ps.
Proof.
  revert effs. induction ps as [|p ps IH]; intros effs; cbn [disconnectEach map].
  - intros [= <-]. split; [constructor|reflexivity].
  - destruct (Disconnect_call (view p) (pick p)) as [[| |]|] eqn:E;
      try discriminate;
      (destruct (disconnectEach view pick ps) as [effs' r];
       intros [= <- ->]; destruct (IH effs' eq_refl) as [HF ->];
       split; [constructor; [unfold call_returns; now rewrite E|exact HF]
              |reflexivity]).
Qed.

(** The calls are made in the order of the range, up to the first that does
    not return. *)
Lemma disconnectEach_prefix (view : PeerPtr -> PeerRun) (pick : PeerPtr -> nat)
    (ps : list PeerPtr) :
  exists k, (disconnectEach view pick ps).1
            = map (fun p => EffDisconnect p discServerQuit) (firstn k ps).
Proof.
  induction ps as [|p ps [k IH]]; cbn [disconnectEach].
  - exists 0%nat. reflexivity.
  - destruct (Disconnect_call (view p) (pick p)) as [[| |]|];
      try (exists 1%nat; cbn; now rewrite firstn_O).
    all: destruct (disconnectEach view pick ps) as [effs r]; cbn [fst] in *;
      exists (S k); cbn; now rewrite IH.
Qed.

(** When every call of Disconnect on a mapped peer returns, the shutdown is
    what it is meant to be: Disconnect with reason 11 on every peer of the
    map and on nobody else, then the reads from delpeer for as long as the
    map is non-empty; the loop returns exactly when the map has become
    empty, and it does return when a remove-peer event arrives for every
    mapped NodeID. *)
Lemma shutdown_with_returning_calls
    (view : PeerPtr -> PeerRun) (pick : PeerPtr -> nat)
    (peers : gmap Address PeerPtr) (dels : list PeerPtr) :
  (forall k p, peers !! k = Some p -> call_returns view pick p) ->
  exists consumed unread,
    dels = consumed ++ unread /\
    (shutdown nid view pick peers dels).1 =
      map (fun kv : Address * PeerPtr => EffDisconnect kv.2 11) (map_to_list peers)
      ++ map EffRecvDel consumed /\
    (forall cs x rest, consumed = cs ++ x :: rest -> after_dels nid peers cs <> ∅) /\
    match (shutdown nid view pick peers dels).2 with
    | ShutDrained (Returned final rest) =>
        final = ∅ /\ after_dels nid peers consumed = ∅ /\ rest = unread
    | ShutDrained (Waiting final) =>
        final <> ∅ /\ final = after_dels nid peers dels /\ consumed = dels
    | _ => False
    end /\
    ((forall k, is_Some (peers !! k) -> k ∈ map nid dels) ->
     exists rest, (shutdown nid view pick peers dels).2 = ShutDrained (Returned ∅ rest)).
Proof.
  intros Hret.
  assert (HF : Forall (call_returns view pick) (map snd (map_to_list peers))).
  { apply Forall_forall. intros p Hp. apply list_elem_of_fmap in Hp as ([k q] & -> & Hin).
    apply elem_of_map_to_list in Hin. exact (Hret k q Hin). }
  destruct (drain_spec dels peers) as (cs & un & Hd & Heff & Hpre & Hres).
  exists cs, un. unfold shutdown, disconnectAll.
  rewrite (disconnectEach_returned view pick _ HF).
  pose proof (drain_returns dels peers) as Hdone.
  destruct (drain nid peers dels) as [effs r]; cbn [fst snd] in *.
  split; [exact Hd|]. split.
  { rewrite Heff. f_equal. unfold discServerQuit. now rewrite map_map. }
  split; [exact Hpre|]. split.
  - destruct r as [final rest|final].
    + destruct Hres as (H1 & H2 & H3). repeat split; congruence.
    + destruct Hres as (H1 & H2 & ->). rewrite app_nil_r in Hd. subst cs.
      repeat split; assumption.
  - intros Hcov. destruct (Hdone Hcov) as (f & rest & ->).
    destruct Hres as (-> & _). eauto.
Qed.

(** Whatever the order of the range: with one mapped peer whose call does
    not return, the drain loop is not reached. *)
Lemma shutdown_not_drained
    (view : PeerPtr -> PeerRun) (pick : PeerPtr -> nat)
    (peers : gmap Address PeerPtr) (dels : list PeerPtr) (k : Address) (p : PeerPtr) :
  peers !! k = Some p -> ~ call_returns view pick p ->
  forall d, (shutdown nid view pick peers dels).2 <> ShutDrained d.
Proof.
  intros Hk Hno d. unfold shutdown, disconnectAll.
  destruct (disconnectEach view pick (map snd (map_to_list peers)))
    as [effs [|q|q]] eqn:Hcalls; [|discriminate|discriminate].
  apply disconnectEach_AllReturned in Hcalls as [HF _].
  exfalso. apply Hno. rewrite Forall_forall in HF. apply HF.
  apply list_elem_of_fmap. exists (k, p). split; [reflexivity|].
  now apply elem_of_map_to_list.
Qed.

End Shutdown.

(** [Server.run] returns with an empty peer map only. *)
Lemma Server_run_returns_empty (nid : PeerPtr -> Address) (kad : list Node)
    (view : PeerPtr -> PeerRun) (pick : PeerPtr -> nat)
    (peers final : gmap Address PeerPtr) (evs : list event) (dels rest : list PeerPtr) :
  (Server_run nid kad view pick peers evs dels).2 = ShutDrained (Returned final rest) ->
  final = ∅.
Proof.
  unfold Server_run, shutdown.
  destruct (serve nid kad peers evs) as [peers1 effs1].
  destruct (disconnectAll view pick peers1) as [effs [|p|p]]; cbn [snd];
    try discriminate.
  destruct (drain_spec nid dels peers1) as (cs & un & _ & _ & _ & Hres).
  destruct (drain nid peers1 dels) as [effs2 r]; cbn in *.
  intros [= ->]. now destruct Hres.
Qed.

(** C6 on the code: quit fires with two peers in the map.  Peer 1 has
    returned from [run] (its channels are closed) and waits to hand itself to
    the loop on delpeer, so it is still mapped.  The loop calls Disconnect on
    it; when the select takes the send on the closed [p.disc], the call
    panics: peer 2 is never told to disconnect and nothing is drained,
    although both remove-peer events are on their way.  When the select
    takes the other case, the loop goes on and drains.  And with peer 1 not
    yet parked in its select, the call has no case to take and the loop
    waits in it. *)
Theorem shutdown_stops_in_Disconnect :
  shutdown own_node one_returned (fun _ => 0%nat) two_peers [1%nat; 2%nat]
    = ([EffDisconnect 1%nat 11], ShutPanicked 1%nat) /\
  shutdown own_node one_returned (fun _ => 1%nat) two_peers [1%nat; 2%nat]
    = ([EffDisconnect 1%nat 11; EffDisconnect 2%nat 11;
        EffRecvDel 1%nat; EffRecvDel 2%nat], ShutDrained (Returned ∅ [])) /\
  shutdown own_node one_starting (fun _ => 0%nat) two_peers [1%nat; 2%nat]
    = ([EffDisconnect 1%nat 11], ShutBlocked 1%nat).
Proof. vm_compute. repeat split; reflexivity. Qed.

(** C8 on the code: the peer at address 1 is mapped under NodeID [[5]], and a
    remove-peer event arrives for a stale peer (address 2) with the same
    NodeID.  The running loop compares the instances and keeps the entry.
    The drain loop after quit deletes by NodeID alone: the live entry is
    removed, the map is empty and the loop returns without having taken the
    event of the peer that was mapped. *)
Theorem stale_remove_event_in_drain :
  serve_event same_node {[ [5] := 1%nat ]} (DelPeer 2%nat) = ({[ [5] := 1%nat ]}, []) /\
  drain same_node {[ [5] := 1%nat ]} [2%nat] = ([EffRecvDel 2%nat], Returned ∅ []) /\
  drain same_node {[ [5] := 1%nat ]} [2%nat; 1%nat]
    = ([EffRecvDel 2%nat], Returned ∅ [1%nat]).
Proof. vm_compute. repeat split; reflexivity. Qed.

(** The case split every fact about [setupConn] starts with: one goal per
    return statement of the function. *)
Ltac setup_cases X fd :=
  unfold setupConn;
  destruct (Serialize X _) as [?e|?buffer];
  [|destruct (sendRawMsg fd _) as [?fd1 ?e1];
    destruct (recvRawMsg _ _ _) as [?fd2 [?e|?m]];
    [|destruct (Deserialize X _ _) as [?e|];
      [|destruct (assignCodes X _ _ _ _) as [?pm ?cm]]]].

Section Handshake.

Variable X : Externals.

(** A peer comes out of [setupConn] only on the inbound path, with a node
    of the snapshot whose ID is all zeros, and with the tables the loop over
    the local protocols builds. *)
Lemma setupConn_admitted (srv : Server) (fd : Conn) (flags : Z)
    (dialDest : option Node) (amb : Ambient) (p : Peer) :
  admitted (setupConn X srv fd flags dialDest amb) = Some p ->
  returned (setupConn X srv fd flags dialDest amb) = None /\
  flags = inboundConn /\
  (protoMap p, capMap p) =
    assignCodes X (Protocols srv) (uint16 (baseProtoCode X)) ∅ ∅ /\
  exists n, node p = Some n /\ n ∈ kadDB srv /\ ID n = repeat 0 (nodeIDLen X).
Proof.
  setup_cases X fd; try discriminate.
  destruct (flags =? inboundConn) eqn:Hf; [|discriminate].
  destruct (find _ (kadDB srv)) as [n|] eqn:Hfind; [|discriminate].
  cbn. intros [= <-]. cbn.
  apply Z.eqb_eq in Hf. apply find_some in Hfind as [Hin Hid].
  apply bool_decide_eq_true in Hid.
  repeat split; try assumption.
  exists n. repeat split; try assumption. now apply list_elem_of_In.
Qed.

(** A handshake that returns an error hands no peer to the server loop. *)
Lemma setupConn_failed_no_peer (srv : Server) (fd : Conn) (flags : Z)
    (dialDest : option Node) (amb : Ambient) (e : error) :
  returned (setupConn X srv fd flags dialDest amb) = Some e ->
  admitted (setupConn X srv fd flags dialDest amb) = None.
Proof.
  intros Hr.
  destruct (admitted (setupConn X srv fd flags dialDest amb)) as [p|] eqn:Ha;
    [|reflexivity].
  apply setupConn_admitted in Ha as (Hn & _). congruence.
Qed.

(** The dial path never gets a peer through. *)
Lemma setupConn_outbound (srv : Server) (fd : Conn)
    (dialDest : option Node) (amb : Ambient) :
  admitted (setupConn X srv fd outboundConn dialDest amb) = None /\
  returned (setupConn X srv fd outboundConn dialDest amb) <> None.
Proof.
  setup_cases X fd; now cbn.
Qed.

Lemma conn_Write_with_rbuf (c : Conn) (r b : list Z) :
  conn_Write (with_rbuf c r) b =
  (with_rbuf (conn_Write c b).1 r, (conn_Write c b).2).
Proof.
  unfold conn_Write, with_rbuf; cbn.
  destruct (isClosed c) eqn:Hc; cbn; [now rewrite Hc|].
  destruct (wroom c) as [n|]; cbn; [|reflexivity].
  now destruct (length b <=? n)%nat.
Qed.

Lemma sendRawMsg_with_rbuf (c : Conn) (r : list Z) (m : msg) :
  sendRawMsg (with_rbuf c r) m =
  (with_rbuf (sendRawMsg c m).1 r, (sendRawMsg c m).2).
Proof.
  unfold sendRawMsg. rewrite conn_Write_with_rbuf.
  destruct (conn_Write c _) as [c1 [e1|]]; cbn; [reflexivity|].
  rewrite conn_Write_with_rbuf.
  now destruct (conn_Write c1 _) as [c2 [e2|]].
Qed.

(** Two incoming frames that differ in protoCode and msgCode only are
    received alike: the same failure, or the same payload and the same
    connection afterwards. *)
Lemma recvRawMsg_codes (c : Conn) (sz pc mc pc' mc' : Z) (rest : list Z)
    (now : Z) (p : PeerPtr) :
  let r := recvRawMsg (with_rbuf c (BigEndian.PutUint32 sz ++ BigEndian.PutUint16 pc
                                    ++ BigEndian.PutUint16 mc ++ rest)) now p in
  let r' := recvRawMsg (with_rbuf c (BigEndian.PutUint32 sz ++ BigEndian.PutUint16 pc'
                                     ++ BigEndian.PutUint16 mc' ++ rest)) now p in
  (exists e, r.2 = inl e /\ r'.2 = inl e) \/
  (exists m m', r.2 = inr m /\ r'.2 = inr m' /\ r.1 = r'.1 /\
                Message.payload (message m) = Message.payload (message m')).
Proof.
  unfold recvRawMsg, ReadFull, with_rbuf, BigEndian.PutUint32, BigEndian.PutUint16.
  cbn [app length Nat.leb firstn skipn slice Nat.sub rbuf wbuf wroom isClosed].
  destruct (isClosed c) eqn:Hc; cbn [fst snd]; [left; eauto|].
  repeat rewrite firstn_O. repeat rewrite skipn_O.
  destruct (Z.to_nat (BigEndian.Uint32 _)) as [|k]; cbn [fst snd].
  - right. do 2 eexists. repeat split.
  - cbn [isClosed rbuf].
    destruct (S k <=? length rest)%nat; cbn [fst snd].
    + right. do 2 eexists. repeat split.
    + left. eauto.
Qed.

(** C9, as the code has it: the handshake never looks at the protoCode and
    msgCode of the frame it receives.  Two connections that deliver frames
    differing in these two fields only end the handshake alike: the same
    error or none, and the same peer admitted or none. *)
Theorem handshake_ignores_frame_codes (srv : Server) (c : Conn) (flags : Z)
    (dialDest : option Node) (amb : Ambient)
    (sz pc mc pc' mc' : Z) (rest : list Z) :
  let fd := with_rbuf c (BigEndian.PutUint32 sz ++ BigEndian.PutUint16 pc
                         ++ BigEndian.PutUint16 mc ++ rest) in
  let fd' := with_rbuf c (BigEndian.PutUint32 sz ++ BigEndian.PutUint16 pc'
                          ++ BigEndian.PutUint16 mc' ++ rest) in
  returned (setupConn X srv fd flags dialDest amb)
    = returned (setupConn X srv fd' flags dialDest amb) /\
  admitted (setupConn X srv fd flags dialDest amb)
    = admitted (setupConn X srv fd' flags dialDest amb).
Proof.
  intros fd fd'. unfold setupConn.
  destruct (Serialize X _) as [e|buffer]; [now cbn|].
  subst fd fd'. rewrite !sendRawMsg_with_rbuf.
  destruct (sendRawMsg c _) as [c1 e1]; cbn [fst snd].
  pose proof (recvRawMsg_codes c1 sz pc mc pc' mc' rest
                (time_Now amb) (self_ptr amb)) as H.
  cbn zeta in H.
  destruct (recvRawMsg (with_rbuf c1 (_ ++ _ ++ BigEndian.PutUint16 mc ++ _)) _ _)
    as [fd2 r2].
  destruct (recvRawMsg (with_rbuf c1 (_ ++ _ ++ BigEndian.PutUint16 mc' ++ _)) _ _)
    as [fd2' r2'].
  cbn [fst snd] in H.
  destruct H as [(e & -> & ->)|(m & m' & -> & -> & -> & Hpl)]; [now cbn|].
  rewrite Hpl.
  destruct (Deserialize X _ _) as [e|]; [now cbn|].
  destruct (assignCodes X _ _ _ _) as [pm cm].
  destruct (if flags =? inboundConn then _ else _); now cbn.
Qed.

End Handshake.

(** C1 on the code: endpoint A registers chain/1 and tx/1, endpoint B tx/1
    and light/1.  The specified table gives tx/1 the base code 2 at both
    ends; the loop of [setupConn] numbers each end's own protocols in
    registration order, so A sends tx/1 under code 3, which B reads as
    light/1. *)
Theorem code_table_from_local_protocols_only :
  let base := uint16 (baseProtoCode sampleX) in
  let A := assignCodes sampleX [chain1; tx1] base ∅ ∅ in
  let B := assignCodes sampleX [tx1; light1] base ∅ ∅ in
  spec_capMap sampleX (map cap [chain1; tx1]) (map cap [tx1; light1])
    = {[ "tx/1"%string := 2 ]} /\
  spec_capMap sampleX (map cap [tx1; light1]) (map cap [chain1; tx1])
    = {[ "tx/1"%string := 2 ]} /\
  A.2 = {[ "chain/1"%string := 2; "tx/1"%string := 3 ]} /\
  B.2 = {[ "tx/1"%string := 2; "light/1"%string := 3 ]} /\
  A.1 !! 3 = Some tx1 /\
  B.1 !! 3 = Some light1.
Proof. vm_compute. repeat split; reflexivity. Qed.

(** C2 on the code: a dialled connection never yields a peer.  With the
    frames exchanged and decoded, [setupConn] still returns the
    node-not-found error, admits nobody and leaves the connection open. *)
Theorem outbound_handshake_fails_unknown_peer :
  (forall X srv fd dialDest amb,
      admitted (setupConn X srv fd outboundConn dialDest amb) = None /\
      returned (setupConn X srv fd outboundConn dialDest amb) <> None) /\
  let r := setupConn sampleX (srvA [nodeB]) (open_conn (frame_bytes 1 10 [1; 2]))
             outboundConn (Some nodeB) sample_amb in
  returned r = Some ErrNotFoundNodeID /\
  admitted r = None /\
  isClosed (fd_after r) = false.
Proof.
  split; [intros; apply setupConn_outbound|].
  vm_compute. repeat split; reflexivity.
Qed.

(** C3 on the code: an inbound handshake whose node is not in the snapshot
    returns the node-not-found error and admits nobody, but the connection
    is left open; the three earlier failures close it. *)
Theorem unknown_inbound_node_leaves_conn_open :
  let r := setupConn sampleX (srvA []) (open_conn (frame_bytes 1 10 [1; 2]))
             inboundConn None sample_amb in
  let short := setupConn sampleX (srvA []) (open_conn [0; 0; 0])
                 inboundConn None sample_amb in
  returned r = Some ErrNotFoundNodeID /\
  admitted r = None /\
  isClosed (fd_after r) = false /\
  returned short = Some ErrIO /\
  admitted short = None /\
  isClosed (fd_after short) = true.
Proof. vm_compute. repeat split; reflexivity. Qed.

(** C9 refuted: the reply arrives under protoCode 7 and msgCode 99, neither
    the control code nor the handshake code, and the handshake succeeds and
    admits the peer. *)
Lemma handshake_accepts_non_control_frame :
  7 <> ctlProtoCode sampleX /\
  99 <> ctlMsgProtoHandshake sampleX /\
  (recvRawMsg (open_conn (frame_bytes 7 99 [1; 2])) 0 0%nat).2
    = inr {| protoCode := 7;
             message := {| Message.size := 2; Message.msgCode := 99;
                           Message.payload := [1; 2]; Message.ReceivedAt := 0;
                           Message.CurPeer := Some 0%nat |} |} /\
  returned non_control_reply = None /\
  option_map node (admitted non_control_reply) = Some (Some zero_node).
Proof. vm_compute. repeat split; discriminate || reflexivity. Qed.

(** An error return with the connection still open is the node-not-found
    return: the failures before it close the connection. *)
Lemma setupConn_open_after_error (X : Externals) (srv : Server) (fd : Conn)
    (flags : Z) (dialDest : option Node) (amb : Ambient) :
  returned (setupConn X srv fd flags dialDest amb) <> None ->
  isClosed (fd_after (setupConn X srv fd flags dialDest amb)) = false ->
  returned (setupConn X srv fd flags dialDest amb) = Some ErrNotFoundNodeID.
Proof.
  setup_cases X fd; try (cbn; discriminate).
  destruct (if flags =? inboundConn then _ else _); cbn; congruence.
Qed.

(** ** Peer.run, the pinger and Disconnect *)

Section PeerRun.

Variable X : Externals.

(** Once the loop is left, [run] closes both channels and the connection. *)
Lemma run_teardown (s : PeerRun) :
  pc s = AtCloseClosed ->
  pc (run_exec 4 s) = AtReturn /\
  closed (peer (run_exec 4 s)) = ChanClosed /\
  disc (peer (run_exec 4 s)) = ChanClosed /\
  isClosed (conn (peer (run_exec 4 s))) = true /\
  err (peer (run_exec 4 s)) = err (peer s).
Proof.
  intros H. destruct s as [p k w r]; cbn in H; subst k. now cbn.
Qed.

(** A reader error is a terminal event. *)
Lemma run_ends_on_read_error (s : PeerRun) (e : option error) (r : list (option error)) :
  pc s = AtSelect -> writeErr s = [] -> readErr s = e :: r ->
  pc (run_exec 5 s) = AtReturn /\
  closed (peer (run_exec 5 s)) = ChanClosed /\
  isClosed (conn (peer (run_exec 5 s))) = true /\
  err (peer (run_exec 5 s)) = e.
Proof.
  intros Hp Hw Hr. destruct s as [p k w rd]; cbn in *; subst. now cbn.
Qed.

(** A disconnect request received in the select is a terminal event. *)
Lemma run_ends_on_disconnect (s s' : PeerRun) (reason : Z) :
  (DiscPosted, s') ∈ Disconnect s reason ->
  pc (run_exec 4 s') = AtReturn /\
  closed (peer (run_exec 4 s')) = ChanClosed /\
  isClosed (conn (peer (run_exec 4 s'))) = true /\
  err (peer (run_exec 4 s')) = Some ErrDiscRecved.
Proof.
  unfold Disconnect. intros H.
  apply elem_of_app in H as [H|H].
  - destruct (disc (peer s)).
    + destruct (pc s); try (now inversion H).
      all: apply list_elem_of_singleton in H; injection H as <-; now cbn.
    + apply list_elem_of_singleton in H. discriminate.
  - destruct (closed (peer s)); [inversion H|].
    apply list_elem_of_singleton in H. discriminate.
Qed.

(** A failed read is put on [readErr] by the reader, and [run] ends on it. *)
Lemma reader_failure_ends_run (s : PeerRun) (now : Z) (self : PeerPtr)
    (fwd : bool) (c1 : Conn) (e : error) :
  pc s = AtSelect -> writeErr s = [] -> readErr s = [] ->
  recvRawMsg (conn (peer s)) now self = (c1, inl e) ->
  (readLoop_iter X s now self fwd).2 = false /\
  pc (run_exec 5 (readLoop_iter X s now self fwd).1) = AtReturn /\
  err (peer (run_exec 5 (readLoop_iter X s now self fwd).1)) = Some e.
Proof.
  intros Hp Hw Hr Hrecv. unfold readLoop_iter. rewrite Hrecv. cbn [fst snd].
  split; [reflexivity|].
  edestruct (run_ends_on_read_error
               {| peer := set_conn (peer s) c1; pc := pc s; writeErr := writeErr s;
                  readErr := readErr s ++ [Some e] |} (Some e) [])
    as (H1 & _ & _ & H4); cbn; try assumption.
  - now rewrite Hr.
  - split; assumption.
Qed.

(** With [p.disc] closed, the send case of [Disconnect] can proceed, and it
    panics. *)
Lemma Disconnect_on_closed_disc (s : PeerRun) (reason : Z) :
  disc (peer s) = ChanClosed -> (DiscPanic, s) ∈ Disconnect s reason.
Proof.
  intros H. unfold Disconnect. rewrite H. apply elem_of_app. left.
  now apply list_elem_of_singleton.
Qed.

(** A ping leaves both error channels as they were, whatever became of the
    write: with nothing buffered, [run] stays parked. *)
Lemma ping_never_wakes_run (s : PeerRun) :
  pc s = AtSelect -> writeErr s = [] -> readErr s = [] ->
  run_step (pingLoop_fire X s) = [] /\
  writeErr (pingLoop_fire X s) = [] /\
  closed (peer (pingLoop_fire X s)) = closed (peer s).
Proof.
  intros Hp Hw Hr. unfold pingLoop_fire, run_step, run_select; cbn.
  now rewrite Hp, Hw, Hr.
Qed.

End PeerRun.

(** C7 on the code: a first Disconnect is received by the parked [run], which
    then closes [p.closed], the connection and [p.disc].  A second Disconnect
    finds both cases of its select able to proceed, and the send case is a
    send on a closed channel.  Before [run] reaches its select the call has no
    case to take and blocks; between the two closes it is dropped. *)
Theorem Disconnect_after_teardown_may_panic :
  let s0 := parked (open_conn []) in
  let s1 := with_peer s0 (set_err (peer s0) (Some ErrDiscRecved)) AtCloseClosed in
  let s2 := run_exec 4 s1 in
  Disconnect s0 discAlreadyConnected = [(DiscPosted, s1)] /\
  pc s2 = AtReturn /\
  closed (peer s2) = ChanClosed /\
  disc (peer s2) = ChanClosed /\
  Disconnect s2 discServerQuit = [(DiscPanic, s2); (DiscDropped, s2)] /\
  Disconnect (run_exec 1 s1) discServerQuit = [(DiscDropped, run_exec 1 s1)] /\
  Disconnect (with_peer s0 (peer s0) AtAnnounce) discServerQuit = [].
Proof. cbv zeta. repeat split; reflexivity. Qed.

(** C10 on the code: the write side of the connection is broken and a ping
    is due.  [sendRawMsg] fails, [sendCtlMsg] returns nil all the same,
    nothing reaches [writeErr], and [run] stays parked in its select with the
    peer open; an application send gets the error back and [run] is none the
    wiser. *)
Theorem write_failure_is_not_terminal :
  let broken := {| rbuf := []; wbuf := []; wroom := Some 0%nat; isClosed := false |} in
  let ping := {| protoCode := ctlProtoCode sampleX;
                 message := {| Message.size := 0;
                               Message.msgCode := ctlMsgPingCode sampleX;
                               Message.payload := []; Message.ReceivedAt := 0;
                               Message.CurPeer := None |} |} in
  let s0 := parked broken in
  let s1 := pingLoop_fire sampleX s0 in
  (sendRawMsg broken ping).2 = Some ErrIO /\
  (sendCtlMsg sampleX broken (ctlMsgPingCode sampleX)).2 = None /\
  writeErr s1 = [] /\
  readErr s1 = [] /\
  pc s1 = AtSelect /\
  run_step s1 = [] /\
  run_exec 100 s1 = s1 /\
  closed (peer s1) = ChanOpen /\
  isClosed (conn (peer s1)) = false /\
  (SendMsg sampleX (peer s0) tx1 (message ping)).2 = Some ErrIO /\
  run_step (with_peer s0 (SendMsg sampleX (peer s0) tx1 (message ping)).1 AtSelect) = [].
Proof. cbv zeta. repeat split; reflexivity. Qed.

(** * Further properties of the two files *)

(** ** Framed transport: decoding, failures, partial writes *)

Lemma lor_shiftl_add (lo hi k : Z) :
  0 <= k -> 0 <= lo < 2 ^ k -> Z.lor lo (Z.shiftl hi k) = lo + hi * 2 ^ k.
Proof.
  intros Hk Hlo. rewrite <- Z.shiftl_mul_pow2 by lia.
  assert (Hland : Z.land lo (Z.shiftl hi k) = 0).
  { apply Z.bits_inj'; intros n Hn. rewrite Z.land_spec, Z.bits_0.
    destruct (Z.ltb_spec n k).
    - rewrite Z.shiftl_spec_low by lia. apply andb_false_r.
    - rewrite (testbit_above lo k n) by lia. reflexivity. }
  rewrite <- (Z.lxor_lor _ _ Hland). symmetry. now apply Z.add_nocarry_lxor.
Qed.

Lemma Uint16_value (a b : Z) :
  0 <= a < 256 -> 0 <= b < 256 ->
  BigEndian.Uint16 [a; b] = b + a * 256.
Proof.
  intros Ha Hb. unfold BigEndian.Uint16, idx; cbn [nth].
  rewrite lor_shiftl_add by lia. reflexivity.
Qed.

Lemma Uint32_value (a b c d : Z) :
  0 <= a < 256 -> 0 <= b < 256 -> 0 <= c < 256 -> 0 <= d < 256 ->
  BigEndian.Uint32 [a; b; c; d] = d + c * 256 + b * 65536 + a * 16777216.
Proof.
  intros Ha Hb Hc Hd. unfold BigEndian.Uint32, idx; cbn [nth].
  rewrite (lor_shiftl_add d c 8) by lia.
  rewrite (lor_shiftl_add _ b 16) by lia.
  rewrite (lor_shiftl_add _ a 24) by lia.
  reflexivity.
Qed.

Lemma PutUint16_Uint16 (a b : Z) :
  0 <= a < 256 -> 0 <= b < 256 ->
  BigEndian.PutUint16 (BigEndian.Uint16 [a; b]) = [a; b].
Proof.
  intros Ha Hb. rewrite Uint16_value by assumption.
  unfold BigEndian.PutUint16. rewrite uint8_shiftr, uint8_mod by lia.
  change (2 ^ 8) with 256.
  f_equal; [|f_equal]; Z.div_mod_to_equations; lia.
Qed.

Lemma PutUint32_Uint32 (a b c d : Z) :
  0 <= a < 256 -> 0 <= b < 256 -> 0 <= c < 256 -> 0 <= d < 256 ->
  BigEndian.PutUint32 (BigEndian.Uint32 [a; b; c; d]) = [a; b; c; d].
Proof.
  intros Ha Hb Hc Hd. rewrite Uint32_value by assumption.
  unfold BigEndian.PutUint32. rewrite !uint8_shiftr, uint8_mod by lia.
  change (2 ^ 8) with 256. change (2 ^ 16) with 65536. change (2 ^ 24) with 16777216.
  f_equal; [|f_equal; [|f_equal; [|f_equal]]]; Z.div_mod_to_equations; lia.
Qed.

Lemma is_bytes_cons (b : Z) (l : list Z) :
  is_bytes (b :: l) <-> 0 <= b < 256 /\ is_bytes l.
Proof.
  unfold is_bytes. split.
  - intros H. inversion H; subst. now split.
  - intros [H1 H2]. now constructor.
Qed.

(** X1: decoding is the inverse of encoding.  On a stream of bytes, a frame
    returned by [recvRawMsg] has fields that fit their widths and a size equal
    to its payload length, the bytes taken off the stream are exactly the
    bytes [sendRawMsg] writes for it, and the write side of the connection is
    not touched. *)
Theorem recvRawMsg_takes_one_encoded_frame
    (c c' : Conn) (now : Z) (p : PeerPtr) (m : msg) :
  is_bytes (rbuf c) ->
  recvRawMsg c now p = (c', inr m) ->
  frame_ok m /\
  rbuf c = wire_bytes m ++ rbuf c' /\
  wbuf c' = wbuf c /\ wroom c' = wroom c /\ isClosed c' = false /\
  Message.ReceivedAt (message m) = now /\
  Message.CurPeer (message m) = Some p.
Proof.
  intros Hb. unfold recvRawMsg, ReadFull.
  destruct (isClosed c) eqn:Hc; [discriminate|].
  destruct (8 <=? length (rbuf c))%nat eqn:H8; [|discriminate].
  apply Nat.leb_le in H8.
  destruct (rbuf c) as [|b0 [|b1 [|b2 [|b3 [|b4 [|b5 [|b6 [|b7 rest]]]]]]]];
    cbn in H8; try lia.
  repeat (apply is_bytes_cons in Hb as [? Hb]).
  cbn [firstn skipn slice Nat.sub rbuf wbuf wroom isClosed].
  repeat rewrite firstn_O. repeat rewrite skipn_O.
  set (sz := BigEndian.Uint32 [b0; b1; b2; b3]).
  assert (Hsz : 0 <= sz < 2 ^ 32).
  { subst sz. rewrite Uint32_value by assumption. lia. }
  assert (Hpc : 0 <= BigEndian.Uint16 [b4; b5] < 2 ^ 16)
    by (rewrite Uint16_value by assumption; lia).
  assert (Hmc : 0 <= BigEndian.Uint16 [b6; b7] < 2 ^ 16)
    by (rewrite Uint16_value by assumption; lia).
  assert (Hhdr : forall pl,
            wire_bytes {| protoCode := BigEndian.Uint16 [b4; b5];
                          message := {| Message.size := sz;
                                        Message.msgCode := BigEndian.Uint16 [b6; b7];
                                        Message.payload := pl;
                                        Message.ReceivedAt := now;
                                        Message.CurPeer := Some p |} |}
            = b0 :: b1 :: b2 :: b3 :: b4 :: b5 :: b6 :: b7 :: pl).
  { intros pl. unfold wire_bytes; cbn [protoCode message Message.size
      Message.msgCode Message.payload].
    subst sz. rewrite PutUint32_Uint32, !PutUint16_Uint16 by assumption.
    reflexivity. }
  destruct (Z.to_nat sz) as [|k] eqn:Hk.
  - intros [= <- <-]. cbn [rbuf wbuf wroom isClosed message Message.ReceivedAt
      Message.CurPeer].
    rewrite Hhdr. unfold frame_ok; cbn. repeat split; try lia; try reflexivity.
  - cbn [isClosed rbuf].
    destruct (S k <=? length rest)%nat eqn:Hle; [|discriminate].
    apply Nat.leb_le in Hle.
    intros [= <- <-]. cbn [rbuf wbuf wroom isClosed message Message.ReceivedAt
      Message.CurPeer].
    rewrite Hhdr. unfold frame_ok; cbn [protoCode message Message.size
      Message.msgCode Message.payload].
    rewrite length_firstn, Nat.min_l by lia.
    repeat split; try lia; try reflexivity.
    cbn [app]. do 8 f_equal. symmetry. apply firstn_skipn.
Qed.

Lemma recvRawMsg_takes_one_encoded_frame_witness :
  frame_ok (mkMsg 2 (Message.mk 3 258 [1; 2; 3] 5 (Some 1%nat))) /\
  [0; 0; 0; 3; 0; 2; 1; 2; 1; 2; 3; 9; 9]
    = wire_bytes (mkMsg 2 (Message.mk 3 258 [1; 2; 3] 5 (Some 1%nat))) ++ [9; 9].
Proof.
  destruct (recvRawMsg_takes_one_encoded_frame
              (open_conn [0; 0; 0; 3; 0; 2; 1; 2; 1; 2; 3; 9; 9])
              (open_conn [9; 9]) 5 1%nat
              (mkMsg 2 (Message.mk 3 258 [1; 2; 3] 5 (Some 1%nat))))
    as (H1 & H2 & _).
  - unfold is_bytes. repeat constructor; lia.
  - reflexivity.
  - split; [exact H1|exact H2].
Defined.

(** X2: when [recvRawMsg] fails.  The only error is the I/O error, and it
    comes exactly when the connection is closed, fewer than eight bytes
    arrive, or fewer bytes follow the header than its first four bytes
    announce; no announced size is refused as such. *)
Theorem recvRawMsg_fails_iff (c : Conn) (now : Z) (p : PeerPtr) :
  ((recvRawMsg c now p).2 = inl ErrIO <->
     isClosed c = true \/
     (length (rbuf c) < 8)%nat \/
     (length (rbuf c) - 8 < Z.to_nat (BigEndian.Uint32 (firstn 4 (rbuf c))))%nat) /\
  (forall e, (recvRawMsg c now p).2 = inl e -> e = ErrIO).
Proof.
  unfold recvRawMsg, ReadFull.
  destruct (isClosed c) eqn:Hc; cbn [fst snd].
  { split; [split; auto|]. now intros e [= <-]. }
  destruct (8 <=? length (rbuf c))%nat eqn:H8; cbn [fst snd].
  2:{ apply Nat.leb_gt in H8. split; [split; auto|]. now intros e [= <-]. }
  apply Nat.leb_le in H8.
  destruct (rbuf c) as [|b0 [|b1 [|b2 [|b3 [|b4 [|b5 [|b6 [|b7 rest]]]]]]]];
    cbn in H8; try lia.
  cbn [firstn skipn slice Nat.sub rbuf wbuf wroom isClosed length].
  repeat rewrite firstn_O. repeat rewrite skipn_O.
  destruct (Z.to_nat (BigEndian.Uint32 [b0; b1; b2; b3])) as [|k] eqn:Hk;
    cbn [fst snd isClosed rbuf].
  - split; [|discriminate]. split; [discriminate|].
    intros [H|[H|H]]; [discriminate|lia|lia].
  - destruct (S k <=? length rest)%nat eqn:Hle; cbn [fst snd].
    + apply Nat.leb_le in Hle. split; [|discriminate].
      split; [discriminate|]. intros [H|[H|H]]; [discriminate|lia|lia].
    + apply Nat.leb_gt in Hle. split; [|now intros e [= <-]].
      split; [|reflexivity]. intros _. right. right. lia.
Qed.

Lemma conn_Write_prefix (c : Conn) (b : list Z) :
  exists k,
    wbuf (conn_Write c b).1 = wbuf c ++ firstn k b /\
    rbuf (conn_Write c b).1 = rbuf c /\
    isClosed (conn_Write c b).1 = isClosed c /\
    ((conn_Write c b).2 = None -> (length b <= k)%nat) /\
    ((conn_Write c b).2 <> None -> (k < length b)%nat \/ isClosed c = true) /\
    (isClosed c = true -> k = 0%nat /\ (conn_Write c b).2 = Some ErrIO).
Proof.
  unfold conn_Write. destruct (isClosed c) eqn:Hc; cbn.
  - exists 0%nat. rewrite firstn_O, app_nil_r. repeat split; auto; discriminate.
  - destruct (wroom c) as [n|]; cbn.
    + destruct (length b <=? n)%nat eqn:Hle; cbn.
      * exists (length b). rewrite firstn_all.
        repeat split; auto; try discriminate; congruence.
      * apply Nat.leb_gt in Hle. exists n.
        repeat split; auto; try discriminate; try (intros _; now left).
    + exists (length b). rewrite firstn_all.
      repeat split; auto; try discriminate; congruence.
Qed.

(** X3: what a send can leave on the wire.  Whatever the state of the
    connection, [sendRawMsg] appends a prefix of the frame's encoding and
    touches neither the read side nor the closed flag; it returns nil only if
    the whole frame went out, and on a closed connection it writes nothing
    and fails. *)
Theorem sendRawMsg_writes_prefix (c : Conn) (m : msg) :
  exists k,
    wbuf (sendRawMsg c m).1 = wbuf c ++ firstn k (wire_bytes m) /\
    rbuf (sendRawMsg c m).1 = rbuf c /\
    isClosed (sendRawMsg c m).1 = isClosed c /\
    ((sendRawMsg c m).2 = None -> wbuf (sendRawMsg c m).1 = wbuf c ++ wire_bytes m) /\
    (isClosed c = true ->
       (sendRawMsg c m).1 = c /\ (sendRawMsg c m).2 = Some ErrIO).
Proof.
  unfold sendRawMsg.
  set (hdr := BigEndian.PutUint32 _ ++ BigEndian.PutUint16 _ ++ BigEndian.PutUint16 _).
  assert (Hwire : wire_bytes m = hdr ++ Message.payload (message m)).
  { unfold wire_bytes, hdr. now rewrite <- !app_assoc. }
  assert (Hclosed : isClosed c = true -> conn_Write c hdr = (c, Some ErrIO)).
  { intros Hc. unfold conn_Write. now rewrite Hc. }
  destruct (conn_Write_prefix c hdr) as (k1 & W1 & R1 & C1 & N1 & E1 & Z1).
  destruct (conn_Write c hdr) as [c1 [e1|]] eqn:H1; cbn [fst snd] in *.
  - exists k1. rewrite Hwire.
    assert (Hk : (k1 <= length hdr)%nat).
    { destruct E1 as [?|Hc]; [discriminate|lia|]. destruct (Z1 Hc) as [-> _]. lia. }
    rewrite firstn_app. replace (k1 - length hdr)%nat with 0%nat by lia.
    rewrite firstn_O, app_nil_r.
    repeat split; auto; try discriminate;
      match goal with
      | Hc : isClosed c = true |- _ => specialize (Hclosed Hc); congruence
      end.
  - specialize (N1 eq_refl).
    destruct (conn_Write_prefix c1 (Message.payload (message m)))
      as (k2 & W2 & R2 & C2 & N2 & E2 & Z2).
    assert (Hopen : isClosed c = true -> False).
    { intros Hc. specialize (Hclosed Hc). congruence. }
    destruct (conn_Write c1 _) as [c2 [e2|]] eqn:H2; cbn [fst snd] in *.
    + exists (length hdr + k2)%nat. rewrite Hwire, W2, W1.
      rewrite (@firstn_all2 _ k1 hdr) by lia.
      rewrite firstn_app, (@firstn_all2 _ (length hdr + k2)%nat hdr) by lia.
      replace (length hdr + k2 - length hdr)%nat with k2 by lia.
      rewrite <- app_assoc.
      repeat split; auto; try congruence; try discriminate; try (exfalso; now apply Hopen).
    + specialize (N2 eq_refl).
      exists (length hdr + k2)%nat. rewrite Hwire, W2, W1.
      rewrite (@firstn_all2 _ k1 hdr) by lia.
      rewrite firstn_app, (@firstn_all2 _ (length hdr + k2)%nat hdr) by lia.
      replace (length hdr + k2 - length hdr)%nat with k2 by lia.
      rewrite <- app_assoc.
      rewrite (firstn_all2 (Message.payload (message m))) by lia.
      repeat split; auto; try congruence; try (exfalso; now apply Hopen).
Qed.

(** The bytes a successful send appends are the encoding of the frame. *)
Lemma sendRawMsg_recvRawMsg_roundtrip_bytes (m : msg) (c c' : Conn) :
  sendRawMsg c m = (c', None) ->
  skipn (length (wbuf c)) (wbuf c') = wire_bytes m.
Proof.
  intros H. apply sendRawMsg_ok in H as (Hw & _).
  rewrite Hw, skipn_app, skipn_all, Nat.sub_diag. reflexivity.
Qed.

(** ** The code tables and the two directions of a message *)

Section Tables.

Variable X : Externals.

Lemma assignCodes_cons (p : Protocol) (rest : list Protocol) (code : Z)
    (pm : gmap Z Protocol) (cm : gmap string Z) :
  0 <= code -> code + Z.of_nat (length (p :: rest)) <= 2 ^ 16 ->
  assignCodes X (p :: rest) code pm cm =
  assignCodes X rest (code + 1) (<[code := p]> pm)
    (<[Cap_String X (cap p) := code]> cm).
Proof.
  intros H0 Hn. cbn [assignCodes]. destruct rest as [|q rest]; [reflexivity|].
  unfold uint16. rewrite Z.mod_small; [reflexivity|].
  cbn [length] in Hn. lia.
Qed.

Lemma assignCodes_protoMap_outside (protos : list Protocol) (code : Z)
    (pm : gmap Z Protocol) (cm : gmap string Z) (k : Z) :
  0 <= code -> code + Z.of_nat (length protos) <= 2 ^ 16 ->
  k < code \/ code + Z.of_nat (length protos) <= k ->
  (assignCodes X protos code pm cm).1 !! k = pm !! k.
Proof.
  revert code pm cm. induction protos as [|p rest IH]; intros code pm cm H0 Hn Hk.
  - reflexivity.
  - rewrite assignCodes_cons by assumption. cbn [length] in Hn, Hk.
    rewrite IH by lia. apply lookup_insert_ne. lia.
Qed.

Lemma assignCodes_protoMap_at (protos : list Protocol) (code : Z)
    (pm : gmap Z Protocol) (cm : gmap string Z) (i : nat) (proto : Protocol) :
  0 <= code -> code + Z.of_nat (length protos) <= 2 ^ 16 ->
  protos !! i = Some proto ->
  (assignCodes X protos code pm cm).1 !! (code + Z.of_nat i) = Some proto.
Proof.
  revert code pm cm i. induction protos as [|p rest IH]; intros code pm cm i H0 Hn Hi.
  - discriminate.
  - rewrite assignCodes_cons by assumption. cbn [length] in Hn.
    destruct i as [|j]; cbn in Hi.
    + injection Hi as ->. rewrite assignCodes_protoMap_outside by lia.
      replace (code + Z.of_nat 0) with code by lia. apply lookup_insert_eq.
    + replace (code + Z.of_nat (S j)) with (code + 1 + Z.of_nat j) by lia.
      apply IH; [lia|lia|exact Hi].
Qed.

Lemma assignCodes_protoMap_inv (protos : list Protocol) (code : Z)
    (pm : gmap Z Protocol) (cm : gmap string Z) (k : Z) (proto : Protocol) :
  0 <= code -> code + Z.of_nat (length protos) <= 2 ^ 16 ->
  (assignCodes X protos code pm cm).1 !! k = Some proto ->
  pm !! k = Some proto \/
  exists i, protos !! i = Some proto /\ k = code + Z.of_nat i.
Proof.
  revert code pm cm. induction protos as [|p rest IH]; intros code pm cm H0 Hn Hk.
  - now left.
  - rewrite assignCodes_cons in Hk by assumption. cbn [length] in Hn.
    destruct (IH (code + 1) _ _ ltac:(lia) ltac:(lia) Hk) as [Hk'|(i & Hi & ->)];
      clear Hk; [rename Hk' into Hk|].
    + rewrite lookup_insert in Hk. case_decide as E.
      * injection Hk as ->. right. exists 0%nat. split; [reflexivity|lia].
      * now left.
    + right. exists (S i). split; [exact Hi|lia].
Qed.

Lemma assignCodes_capMap_other (protos : list Protocol) (code : Z)
    (pm : gmap Z Protocol) (cm : gmap string Z) (s : string) :
  s ∉ cap_strings X protos ->
  (assignCodes X protos code pm cm).2 !! s = cm !! s.
Proof.
  revert code pm cm. induction protos as [|p rest IH]; intros code pm cm Hs.
  - reflexivity.
  - cbn [assignCodes]. cbn in Hs. apply not_elem_of_cons in Hs as [Hne Hs].
    rewrite IH by exact Hs. now apply lookup_insert_ne.
Qed.

Lemma assignCodes_capMap_at (protos : list Protocol) (code : Z)
    (pm : gmap Z Protocol) (cm : gmap string Z) (i : nat) (proto : Protocol) :
  0 <= code -> code + Z.of_nat (length protos) <= 2 ^ 16 ->
  NoDup (cap_strings X protos) ->
  protos !! i = Some proto ->
  (assignCodes X protos code pm cm).2 !! Cap_String X (cap proto)
    = Some (code + Z.of_nat i).
Proof.
  revert code pm cm i. induction protos as [|p rest IH];
    intros code pm cm i H0 Hn Hnd Hi.
  - discriminate.
  - rewrite assignCodes_cons by assumption. cbn [length] in Hn.
    cbn in Hnd. apply NoDup_cons in Hnd as [Hnotin Hnd].
    destruct i as [|j]; cbn in Hi.
    + injection Hi as ->. rewrite assignCodes_capMap_other by exact Hnotin.
      replace (code + Z.of_nat 0) with code by lia. apply lookup_insert_eq.
    + replace (code + Z.of_nat (S j)) with (code + 1 + Z.of_nat j) by lia.
      apply IH; [lia|lia|exact Hnd|exact Hi].
Qed.

(** X4: the two tables of the handshake agree.  With pairwise distinct
    capability strings and codes that stay below 2^16, the i-th protocol gets
    the code base+i in both tables, every code of the demultiplexing table
    comes from the list, and a capability that is not in the list has no
    code. *)
Theorem assignCodes_tables_agree (protos : list Protocol) (base : Z) :
  0 <= base -> base + Z.of_nat (length protos) <= 2 ^ 16 ->
  NoDup (cap_strings X protos) ->
  (forall i proto, protos !! i = Some proto ->
     (assignCodes X protos base ∅ ∅).2 !! Cap_String X (cap proto)
       = Some (base + Z.of_nat i) /\
     (assignCodes X protos base ∅ ∅).1 !! (base + Z.of_nat i) = Some proto) /\
  (forall code proto,
     (assignCodes X protos base ∅ ∅).1 !! code = Some proto ->
     base <= code < base + Z.of_nat (length protos) /\ proto ∈ protos) /\
  (forall s, s ∉ cap_strings X protos ->
     (assignCodes X protos base ∅ ∅).2 !! s = None).
Proof.
  intros H0 Hn Hnd. split; [|split].
  - intros i proto Hi. split.
    + now apply assignCodes_capMap_at.
    + now apply assignCodes_protoMap_at.
  - intros code proto Hk.
    apply assignCodes_protoMap_inv in Hk as [Hk|(i & Hi & ->)]; try assumption.
    + rewrite lookup_empty in Hk. discriminate.
    + pose proof (lookup_lt_Some _ _ _ Hi) as Hlt.
      split; [lia|]. now apply list_elem_of_lookup_2 in Hi.
  - intros s Hs. rewrite assignCodes_capMap_other by exact Hs. apply lookup_empty.
Qed.

(** X5: a well-formed message sent by [SendMsg] reaches its protocol.  Two
    peers carry the tables of the same protocol list, whose capability
    strings are pairwise distinct and whose codes stay below 2^16, and
    [proto] is in that list.  The message has a msgCode that fits sixteen
    bits and a size field equal to the length of its payload and below 2^32
    ([SendMsg] sends the caller's size field as it is).  The sender's
    connection is healthy.  Then [SendMsg] returns nil, and the bytes it
    wrote, read by [recvRawMsg] at the other peer, are handed by [handle] to
    the very protocol the message was sent for, with the same msgCode and
    payload. *)
Theorem SendMsg_reaches_protocol (protos : list Protocol) (base : Z)
    (proto : Protocol) (msgSend : Message.t) (cs cr : Conn) (rest : list Z)
    (now : Z) (self : PeerPtr) :
  0 <= base -> base + Z.of_nat (length protos) <= 2 ^ 16 ->
  NoDup (cap_strings X protos) ->
  proto ∈ protos ->
  0 <= Message.msgCode msgSend < 2 ^ 16 ->
  Message.size msgSend < 2 ^ 32 ->
  Z.of_nat (length (Message.payload msgSend)) = Message.size msgSend ->
  healthy cs ->
  isClosed cr = false ->
  let sent := SendMsg X (peer_with_tables X protos base cs) proto msgSend in
  rbuf cr = skipn (length (wbuf cs)) (wbuf (conn sent.1)) ++ rest ->
  sent.2 = None /\
  exists cr' m',
    recvRawMsg cr now self = (cr', inr m') /\
    rbuf cr' = rest /\
    Message.msgCode (message m') = Message.msgCode msgSend /\
    Message.payload (message m') = Message.payload msgSend /\
    handle X (peer_with_tables X protos base cr) m' true = Forwarded proto.
Proof.
  intros H0 Hn Hnd Hin Hmc Hsz Hlen [Hopen Hroom] Hcr sent Hr.
  apply list_elem_of_lookup in Hin as (i & Hi).
  pose proof (assignCodes_capMap_at protos base ∅ ∅ i proto H0 Hn Hnd Hi) as Hcap.
  pose proof (assignCodes_protoMap_at protos base ∅ ∅ i proto H0 Hn Hi) as Hproto.
  pose proof (lookup_lt_Some _ _ _ Hi) as Hlt.
  set (m := {| protoCode := base + Z.of_nat i; message := msgSend |}).
  destruct (sendRawMsg_healthy cs m Hopen Hroom) as (cs' & Hsend).
  assert (Hsent : sent = (set_conn (peer_with_tables X protos base cs) cs', None)).
  { subst sent. unfold SendMsg. cbn [capMap peer_with_tables conn].
    rewrite Hcap. fold m. now rewrite Hsend. }
  rewrite Hsent in *. cbn [fst snd conn set_conn] in *.
  split; [reflexivity|].
  assert (Hok : frame_ok m).
  { unfold frame_ok, m; cbn. repeat split; lia. }
  rewrite (sendRawMsg_recvRawMsg_roundtrip_bytes m cs cs' Hsend) in Hr.
  destruct (recvRawMsg_wire m cr rest now self Hok Hcr Hr)
    as (cr' & m' & Hrecv & Hrest & Hp & _ & Hm & Hpl).
  exists cr', m'. repeat split; try assumption.
  unfold handle. cbn [protoMap peer_with_tables]. rewrite Hp. cbn [protoCode m].
  now rewrite Hproto.
Qed.

(** X6: a protocol that took no part in the handshake cannot send.  If the
    capability string of [proto] is not among those of the list the tables
    were built from, [SendMsg] fails with the not-found error and leaves the
    peer and its connection as they were. *)
Theorem SendMsg_unknown_protocol (protos : list Protocol) (base : Z)
    (proto : Protocol) (msgSend : Message.t) (c : Conn) :
  Cap_String X (cap proto) ∉ cap_strings X protos ->
  SendMsg X (peer_with_tables X protos base c) proto msgSend
    = (peer_with_tables X protos base c, Some ErrNotFoundProtoCode).
Proof.
  intros Hs. unfold SendMsg. cbn [capMap peer_with_tables].
  now rewrite assignCodes_capMap_other, lookup_empty by exact Hs.
Qed.

(** X7: what becomes of a control frame.  [sendCtlMsg] always returns nil.
    On a healthy connection it writes an empty frame under the control code;
    read at a peer whose table does not hold that code, the frame is
    rejected as an invalid protocol code unless the control code is 1, and
    otherwise a ping spawns a pong, a disc ends the reader with an error and
    every other code (a pong among them) is ignored. *)
Theorem control_frame_dispatch (msgCode : Z) (cs cr : Conn) (pr : Peer)
    (rest : list Z) (now : Z) (self : PeerPtr) (fwd : bool) :
  0 <= ctlProtoCode X < 2 ^ 16 ->
  0 <= msgCode < 2 ^ 16 ->
  protoMap pr !! ctlProtoCode X = None ->
  healthy cs ->
  isClosed cr = false ->
  rbuf cr = skipn (length (wbuf cs)) (wbuf (sendCtlMsg X cs msgCode).1) ++ rest ->
  (sendCtlMsg X cs msgCode).2 = None /\
  exists cr' m',
    recvRawMsg cr now self = (cr', inr m') /\
    rbuf cr' = rest /\
    Message.payload (message m') = [] /\
    handle X pr m' fwd =
      if negb (ctlProtoCode X =? 1) then Rejected ErrNotValidProtoCode
      else if msgCode =? ctlMsgPingCode X then PongSpawned
      else if msgCode =? ctlMsgDiscCode X then Rejected ErrCtlDisc
      else Ignored.
Proof.
  intros Hpc Hmc Htab [Hopen Hroom] Hcr Hr.
  unfold sendCtlMsg in *. fold (ctl_frame X msgCode) in *.
  destruct (sendRawMsg_healthy cs (ctl_frame X msgCode) Hopen Hroom) as (cs' & Hsend).
  rewrite Hsend in *. cbn [fst snd] in *.
  split; [reflexivity|].
  assert (Hok : frame_ok (ctl_frame X msgCode)).
  { unfold frame_ok, ctl_frame; cbn. repeat split; lia. }
  rewrite (sendRawMsg_recvRawMsg_roundtrip_bytes _ cs cs' Hsend) in Hr.
  destruct (recvRawMsg_wire _ cr rest now self Hok Hcr Hr)
    as (cr' & m' & Hrecv & Hrest & Hp & _ & Hm & Hpl).
  exists cr', m'. repeat split; try assumption.
  unfold handle. rewrite Hp, Hm. cbn [protoCode ctl_frame message Message.msgCode].
  now rewrite Htab.
Qed.

End Tables.

(** ** The reader loop *)

Lemma recvRawMsg_keeps_open (c c' : Conn) (now : Z) (p : PeerPtr) (m : msg) :
  recvRawMsg c now p = (c', inr m) ->
  isClosed c' = false /\ wbuf c' = wbuf c /\ wroom c' = wroom c /\
  Message.ReceivedAt (message m) = now /\ Message.CurPeer (message m) = Some p.
Proof.
  unfold recvRawMsg, ReadFull.
  destruct (isClosed c) eqn:Hc; [discriminate|].
  destruct (8 <=? length (rbuf c))%nat; [|discriminate].
  cbn [isClosed rbuf wbuf wroom].
  destruct (Z.to_nat _) as [|k].
  - intros [= <- <-]. now cbn.
  - destruct (S k <=? _)%nat; [|discriminate].
    intros [= <- <-]. now cbn.
Qed.

Lemma recvRawMsg_isClosed (c : Conn) (now : Z) (p : PeerPtr) :
  isClosed (recvRawMsg c now p).1 = isClosed c.
Proof.
  unfold recvRawMsg, ReadFull.
  destruct (isClosed c) eqn:Hc; [exact Hc|].
  destruct (8 <=? length (rbuf c))%nat; [|reflexivity].
  cbn [isClosed rbuf wbuf wroom].
  destruct (Z.to_nat _) as [|k]; [reflexivity|].
  now destruct (S k <=? _)%nat.
Qed.

Lemma recvRawMsg_short (c : Conn) (now : Z) (p : PeerPtr) :
  isClosed c = false -> (length (rbuf c) < 8)%nat ->
  recvRawMsg c now p = (with_rbuf c [], inl ErrIO).
Proof.
  intros Hc Hl. unfold recvRawMsg, ReadFull, with_rbuf. rewrite Hc.
  replace (8 <=? length (rbuf c))%nat with false
    by (symmetry; apply Nat.leb_gt; lia).
  reflexivity.
Qed.

Section Reader.

Variable X : Externals.

Lemma handle_same_frame (p : Peer) (m m' : msg) (f : bool) :
  same_frame m m' -> handle X p m' f = handle X p m f.
Proof.
  intros (Hp & _ & Hm & _). unfold handle. now rewrite Hp, Hm.
Qed.

Lemma readLoop_in_order_gen (ms : list msg) :
  forall (tail : list Z) (s : PeerRun) (now : nat -> Z) (self : PeerPtr)
         (fwd : nat -> bool) (i fuel : nat),
  Forall frame_ok ms ->
  (length tail < 8)%nat ->
  isClosed (conn (peer s)) = false ->
  rbuf (conn (peer s)) = concat (map wire_bytes ms) ++ tail ->
  (forall j m, ms !! j = Some m ->
     handle_err (handle X (peer s) m (fwd (i + j)%nat)) = None) ->
  (length ms < fuel)%nat ->
  let r := readLoop X fuel s now self fwd i in
  r.2 = true /\
  length r.1.1 = length ms /\
  (forall j m, ms !! j = Some m ->
     exists m', r.1.1 !! j = Some (m', handle X (peer s) m (fwd (i + j)%nat)) /\
                same_frame m m' /\
                Message.ReceivedAt (message m') = now (i + j)%nat /\
                Message.CurPeer (message m') = Some self) /\
  readErr r.1.2 = readErr s ++ [Some ErrIO] /\
  writeErr r.1.2 = writeErr s /\
  pc r.1.2 = pc s /\
  rbuf (conn (peer r.1.2)) = [].
Proof.
  induction ms as [|m ms IH];
    intros tail s now self fwd i fuel Hok Htail Hopen Hr Hh Hfuel;
    (destruct fuel as [|fuel]; [cbn in Hfuel; lia|]); cbn [readLoop].
  - cbn in Hr. rewrite recvRawMsg_short by (try assumption; rewrite Hr; lia).
    cbn. repeat split; try reflexivity. intros j m; discriminate.
  - apply Forall_cons in Hok as [Hm Hok].
    cbn [map concat] in Hr. rewrite <- app_assoc in Hr.
    destruct (recvRawMsg_wire m (conn (peer s)) _ (now i) self Hm Hopen Hr)
      as (c1 & m' & Hrecv & Hrest & Hsame).
    rewrite Hrecv.
    destruct (recvRawMsg_keeps_open _ _ _ _ _ Hrecv) as (Ho1 & _ & _ & Hat & Hcp).
    assert (Hsf : same_frame m m') by exact Hsame.
    rewrite (handle_same_frame (peer s) m m' (fwd i) Hsf).
    pose proof (Hh 0%nat m eq_refl) as Hh0. rewrite Nat.add_0_r in Hh0.
    rewrite Hh0.
    specialize (IH tail (with_peer s (set_conn (peer s) c1) (pc s)) now self fwd
                  (S i) fuel Hok Htail).
    cbn [with_peer peer set_conn conn] in IH.
    specialize (IH Ho1 Hrest).
    assert (Hh' : forall j m0, ms !! j = Some m0 ->
              handle_err (handle X (set_conn (peer s) c1) m0 (fwd (S i + j)%nat)) = None).
    { intros j m0 Hj. specialize (Hh (S j) m0 Hj).
      replace (S i + j)%nat with (i + S j)%nat by lia. exact Hh. }
    cbn [length] in Hfuel.
    specialize (IH Hh' ltac:(lia)). cbn zeta in IH.
    destruct (readLoop X fuel _ now self fwd (S i)) as [[hs s'] ended].
    cbn [fst snd] in *.
    destruct IH as (I1 & I2 & I3 & I4 & I5 & I6 & I7).
    repeat split; try assumption.
    + cbn [length]. now rewrite I2.
    + intros [|j] m0 Hj; cbn in Hj.
      * injection Hj as <-. exists m'. rewrite Nat.add_0_r.
        repeat split; try assumption; apply Hsf.
      * destruct (I3 j m0 Hj) as (m0' & L & F & T & P).
        exists m0'. replace (i + S j)%nat with (S i + j)%nat by lia.
        repeat split; try assumption; apply F.
Qed.

(** X8: the reader delivers in wire order.  The stream holds the encodings of
    the frames [ms] one after the other and then fewer than eight bytes; none
    of the frames makes [handle] fail.  Then [readLoop] receives exactly these
    frames, in this order and each stamped with the time of its round, hands
    each to [handle], and ends by putting one I/O error, and nothing else, on
    its error channel. *)
Theorem readLoop_in_order (ms : list msg) (tail : list Z) (s : PeerRun)
    (now : nat -> Z) (self : PeerPtr) (fwd : nat -> bool) (fuel : nat) :
  Forall frame_ok ms ->
  (length tail < 8)%nat ->
  isClosed (conn (peer s)) = false ->
  rbuf (conn (peer s)) = concat (map wire_bytes ms) ++ tail ->
  (forall j m, ms !! j = Some m ->
     handle_err (handle X (peer s) m (fwd j)) = None) ->
  (length ms < fuel)%nat ->
  (readLoop X fuel s now self fwd 0).2 = true /\
  length (readLoop X fuel s now self fwd 0).1.1 = length ms /\
  (forall j m, ms !! j = Some m ->
     exists m', (readLoop X fuel s now self fwd 0).1.1 !! j
                  = Some (m', handle X (peer s) m (fwd j)) /\
                same_frame m m' /\
                Message.ReceivedAt (message m') = now j) /\
  readErr (readLoop X fuel s now self fwd 0).1.2 = readErr s ++ [Some ErrIO].
Proof.
  intros Hok Htail Hopen Hr Hh Hfuel.
  destruct (readLoop_in_order_gen ms tail s now self fwd 0 fuel
              Hok Htail Hopen Hr Hh Hfuel) as (R1 & R2 & R3 & R4 & _).
  repeat split; try assumption.
  intros j m Hj. destruct (R3 j m Hj) as (m' & L & F & T & _).
  exists m'. repeat split; try assumption; apply F.
Qed.

(** X9: a frame that [handle] refuses ends the reader.  If the first frame of
    the stream makes [handle] fail with [e], the reader puts [e] on its error
    channel and stops; whatever follows the frame stays unread. *)
Theorem readLoop_stops_at_refused_frame (m : msg) (rest : list Z) (s : PeerRun)
    (now : nat -> Z) (self : PeerPtr) (fwd : nat -> bool) (fuel : nat) (e : error) :
  frame_ok m ->
  isClosed (conn (peer s)) = false ->
  rbuf (conn (peer s)) = wire_bytes m ++ rest ->
  handle_err (handle X (peer s) m (fwd 0%nat)) = Some e ->
  (0 < fuel)%nat ->
  (readLoop X fuel s now self fwd 0).2 = true /\
  length (readLoop X fuel s now self fwd 0).1.1 = 1%nat /\
  readErr (readLoop X fuel s now self fwd 0).1.2 = readErr s ++ [Some e] /\
  rbuf (conn (peer (readLoop X fuel s now self fwd 0).1.2)) = rest.
Proof.
  intros Hm Hopen Hr Hh Hfuel. destruct fuel as [|fuel]; [lia|]. cbn [readLoop].
  destruct (recvRawMsg_wire m (conn (peer s)) rest (now 0%nat) self Hm Hopen Hr)
    as (c1 & m' & Hrecv & Hrest & Hsame).
  rewrite Hrecv.
  rewrite (handle_same_frame (peer s) m m' (fwd 0%nat) Hsame), Hh.
  cbn. repeat split; try reflexivity. exact Hrest.
Qed.

End Reader.

(** ** The order of the three closes in [run] *)

Section Teardown.

Variable X : Externals.

Lemma sendRawMsg_isClosed (c : Conn) (m : msg) :
  isClosed (sendRawMsg c m).1 = isClosed c.
Proof.
  unfold sendRawMsg.
  destruct (conn_Write_prefix c
              (BigEndian.PutUint32 (Message.size (message m)) ++
               BigEndian.PutUint16 (protoCode m) ++
               BigEndian.PutUint16 (Message.msgCode (message m))))
    as (k1 & _ & _ & C1 & _).
  destruct (conn_Write c _) as [c1 [e1|]]; cbn [fst snd] in *; [exact C1|].
  destruct (conn_Write_prefix c1 (Message.payload (message m)))
    as (k2 & _ & _ & C2 & _).
  destruct (conn_Write c1 _) as [c2 [e2|]]; cbn [fst snd] in *; congruence.
Qed.

Lemma teardown_order_same_flags (s s' : PeerRun) :
  pc s' = pc s ->
  closed (peer s') = closed (peer s) ->
  disc (peer s') = disc (peer s) ->
  isClosed (conn (peer s')) = isClosed (conn (peer s)) ->
  teardown_order s -> teardown_order s'.
Proof.
  unfold teardown_order. intros -> -> -> ->. trivial.
Qed.

Lemma reachable_teardown_order (s : PeerRun) :
  reachable X s -> teardown_order s.
Proof.
  induction 1 as [p Hc Hd Ho|s s' _ IH Hstep|s _ IH|s now self fwd _ IH
                  |s s' reason o _ IH Hdisc].
  - now cbn.
  - unfold run_step in Hstep. unfold teardown_order in IH.
    destruct (pc s) eqn:Hpc.
    + apply list_elem_of_singleton in Hstep as ->. now cbn.
    + unfold run_select in Hstep. apply elem_of_app in Hstep as [Hstep|Hstep].
      * destruct (writeErr s) as [|[e|] w]; [inversion Hstep| |];
          apply list_elem_of_singleton in Hstep as ->; now cbn.
      * destruct (readErr s) as [|e r]; [inversion Hstep|].
        apply list_elem_of_singleton in Hstep as ->. now cbn.
    + apply list_elem_of_singleton in Hstep as ->. cbn. tauto.
    + apply list_elem_of_singleton in Hstep as ->. cbn. tauto.
    + apply list_elem_of_singleton in Hstep as ->. cbn. tauto.
    + apply list_elem_of_singleton in Hstep as ->. cbn. tauto.
    + inversion Hstep.
  - apply (teardown_order_same_flags s); try reflexivity; [|exact IH].
    unfold pingLoop_fire, sendCtlMsg; cbn.
    pose proof (sendRawMsg_isClosed (conn (peer s))
                  {| protoCode := ctlProtoCode X;
                     message := {| Message.size := 0;
                                   Message.msgCode := ctlMsgPingCode X;
                                   Message.payload := []; Message.ReceivedAt := 0;
                                   Message.CurPeer := None |} |}) as H.
    destruct (sendRawMsg _ _) as [c1 e1]. exact H.
  - apply (teardown_order_same_flags s); [| | | |exact IH];
      unfold readLoop_iter;
      pose proof (recvRawMsg_isClosed (conn (peer s)) now self) as H;
      destruct (recvRawMsg _ _ _) as [c1 [e|m]]; cbn [fst] in *;
      try (destruct (handle_err _)); try reflexivity; exact H.
  - unfold Disconnect in Hdisc. unfold teardown_order in IH.
    apply elem_of_app in Hdisc as [Hdisc|Hdisc].
    + destruct (disc (peer s)) eqn:Hd.
      * destruct (pc s) eqn:Hpc; try (now inversion Hdisc).
        all: apply list_elem_of_singleton in Hdisc; injection Hdisc as _ ->;
          cbn; tauto.
      * apply list_elem_of_singleton in Hdisc. injection Hdisc as _ ->.
        unfold teardown_order. now rewrite Hd in *.
    + destruct (closed (peer s)) eqn:Hc; [inversion Hdisc|].
      apply list_elem_of_singleton in Hdisc. injection Hdisc as _ ->.
      unfold teardown_order. now rewrite Hc in *.
Qed.

(** X10: the closes of [run] come in one order.  A peer enters [run] with
    its two channels and its connection open.  In every state it can reach
    while its reader and pinger work and others call Disconnect: the
    connection is closed only after [p.closed], and [p.disc] only after the
    connection; a Disconnect is received only by a peer that has closed none
    of the three, and it panics only on a peer that has closed all three,
    where the silent drop is possible as well. *)
Theorem run_closes_in_order (s : PeerRun) (reason : Z) :
  reachable X s ->
  (isClosed (conn (peer s)) = true -> closed (peer s) = ChanClosed) /\
  (disc (peer s) = ChanClosed -> isClosed (conn (peer s)) = true) /\
  (forall s', (DiscPosted, s') ∈ Disconnect s reason ->
     closed (peer s) = ChanOpen /\ disc (peer s) = ChanOpen /\
     isClosed (conn (peer s)) = false /\ pc s' = AtCloseClosed) /\
  (forall s', (DiscPanic, s') ∈ Disconnect s reason ->
     (DiscDropped, s) ∈ Disconnect s reason /\
     closed (peer s) = ChanClosed /\ disc (peer s) = ChanClosed /\
     isClosed (conn (peer s)) = true).
Proof.
  intros Hr. pose proof (reachable_teardown_order s Hr) as Hinv.
  unfold teardown_order in Hinv.
  assert (Hconn : isClosed (conn (peer s)) = true -> closed (peer s) = ChanClosed).
  { intros Hc. destruct (pc s); destruct Hinv as (? & ? & ?); congruence. }
  assert (Hdisc : disc (peer s) = ChanClosed -> isClosed (conn (peer s)) = true).
  { intros Hd. destruct (pc s); destruct Hinv as (? & ? & ?); congruence. }
  split; [exact Hconn|]. split; [exact Hdisc|]. split.
  - intros s' Hin. unfold Disconnect in Hin.
    apply elem_of_app in Hin as [Hin|Hin].
    + destruct (disc (peer s)) eqn:Hd.
      * destruct (pc s) eqn:Hpc; try (now inversion Hin).
        all: apply list_elem_of_singleton in Hin; injection Hin as ->;
          destruct Hinv as (Hc & _ & Ho); now cbn.
      * apply list_elem_of_singleton in Hin. discriminate.
    + destruct (closed (peer s)); [inversion Hin|].
      apply list_elem_of_singleton in Hin. discriminate.
  - intros s' Hin. unfold Disconnect in Hin.
    assert (Hd : disc (peer s) = ChanClosed).
    { apply elem_of_app in Hin as [Hin|Hin].
      - destruct (disc (peer s)); [|reflexivity].
        destruct (pc s); try (now inversion Hin);
          apply list_elem_of_singleton in Hin; discriminate.
      - destruct (closed (peer s)); [inversion Hin|].
        apply list_elem_of_singleton in Hin. discriminate. }
    pose proof (Hdisc Hd) as Hc1. pose proof (Hconn Hc1) as Hc.
    split; [|auto].
    unfold Disconnect. rewrite Hd, Hc. apply elem_of_app. right.
    now apply list_elem_of_singleton.
Qed.

(** X21: the two events that end [run].  A peer is parked in the select of
    [run] with nothing on its error channels.  Whenever its reader stops,
    after a failed receive or a frame that [handle] refuses, [run] returns
    with the reader's error in [p.err]; whenever a Disconnect is received,
    [run] returns with the disconnect error.  Either way [p.closed] and the
    connection are closed when it returns. *)
Theorem run_returns_after_terminal_event (s : PeerRun) :
  pc s = AtSelect -> writeErr s = [] -> readErr s = [] ->
  (forall now self fwd,
     (readLoop_iter X s now self fwd).2 = false ->
     exists e,
       err (peer (run_exec 5 (readLoop_iter X s now self fwd).1)) = Some e /\
       pc (run_exec 5 (readLoop_iter X s now self fwd).1) = AtReturn /\
       closed (peer (run_exec 5 (readLoop_iter X s now self fwd).1)) = ChanClosed /\
       isClosed (conn (peer (run_exec 5 (readLoop_iter X s now self fwd).1))) = true) /\
  (forall reason s',
     (DiscPosted, s') ∈ Disconnect s reason ->
     err (peer (run_exec 4 s')) = Some ErrDiscRecved /\
     pc (run_exec 4 s') = AtReturn /\
     closed (peer (run_exec 4 s')) = ChanClosed /\
     isClosed (conn (peer (run_exec 4 s'))) = true).
Proof.
  intros Hp Hw Hr. split.
  - intros now self fwd. unfold readLoop_iter.
    destruct (recvRawMsg (conn (peer s)) now self) as [c1 [e|m]].
    + intros _. exists e.
      edestruct (run_ends_on_read_error
                   {| peer := set_conn (peer s) c1; pc := pc s; writeErr := writeErr s;
                      readErr := readErr s ++ [Some e] |} (Some e) [])
        as (H1 & H2 & H3 & H4); cbn [pc writeErr readErr]; try assumption.
      * now rewrite Hr.
      * cbn [fst]. repeat split; assumption.
    + destruct (handle_err _) as [e|]; [|discriminate].
      intros _. exists e.
      edestruct (run_ends_on_read_error
                   {| peer := set_conn (peer s) c1; pc := pc s; writeErr := writeErr s;
                      readErr := readErr s ++ [Some e] |} (Some e) [])
        as (H1 & H2 & H3 & H4); cbn [pc writeErr readErr]; try assumption.
      * now rewrite Hr.
      * cbn [fst]. repeat split; assumption.
  - intros reason s' Hin.
    destruct (run_ends_on_disconnect s s' reason Hin) as (H1 & H2 & H3 & H4).
    repeat split; assumption.
Qed.

End Teardown.

(** ** More on the handshake *)

Lemma recvRawMsg_wbuf (c : Conn) (now : Z) (p : PeerPtr) :
  wbuf (recvRawMsg c now p).1 = wbuf c.
Proof.
  unfold recvRawMsg, ReadFull.
  destruct (isClosed c) eqn:Hc; [reflexivity|].
  destruct (8 <=? length (rbuf c))%nat; [|reflexivity].
  cbn [isClosed rbuf wbuf wroom].
  destruct (Z.to_nat _) as [|k]; [reflexivity|].
  now destruct (S k <=? _)%nat.
Qed.

Lemma sendRawMsg_rbuf (c : Conn) (m : msg) :
  rbuf (sendRawMsg c m).1 = rbuf c.
Proof.
  unfold sendRawMsg.
  destruct (conn_Write_prefix c
              (BigEndian.PutUint32 (Message.size (message m)) ++
               BigEndian.PutUint16 (protoCode m) ++
               BigEndian.PutUint16 (Message.msgCode (message m))))
    as (k1 & _ & R1 & _).
  destruct (conn_Write c _) as [c1 [e1|]]; cbn [fst snd] in *; [exact R1|].
  destruct (conn_Write_prefix c1 (Message.payload (message m)))
    as (k2 & _ & R2 & _).
  destruct (conn_Write c1 _) as [c2 [e2|]]; cbn [fst snd] in *; congruence.
Qed.

(** What a receive does depends on the read side of the connection only. *)
Lemma recvRawMsg_read_side (c c' : Conn) (now : Z) (p : PeerPtr) :
  rbuf c = rbuf c' -> isClosed c = isClosed c' ->
  (recvRawMsg c now p).2 = (recvRawMsg c' now p).2 /\
  rbuf (recvRawMsg c now p).1 = rbuf (recvRawMsg c' now p).1.
Proof.
  intros Hr Hc. unfold recvRawMsg, ReadFull. rewrite <- Hr, <- Hc.
  destruct (isClosed c); [now cbn|].
  destruct (8 <=? length (rbuf c))%nat; [|now cbn].
  cbn [isClosed rbuf wbuf wroom].
  destruct (Z.to_nat _) as [|k]; [now cbn|].
  now destruct (S k <=? _)%nat.
Qed.

Section HandshakeMore.

Variable X : Externals.

(** X11: [setupConn] returns nil exactly when it hands a peer to the server
    loop, and that peer is ready to run: it owns the connection as the
    handshake left it, still open, its two channels are open, it carries no
    error and the creation time read at the start, and its node is the first
    node of the snapshot whose ID is all zeros. *)
Theorem setupConn_admits_ready_peer (srv : Server) (fd : Conn) (flags : Z)
    (dialDest : option Node) (amb : Ambient) :
  (returned (setupConn X srv fd flags dialDest amb) = None <->
   is_Some (admitted (setupConn X srv fd flags dialDest amb))) /\
  (forall p, admitted (setupConn X srv fd flags dialDest amb) = Some p ->
     conn p = fd_after (setupConn X srv fd flags dialDest amb) /\
     isClosed (conn p) = false /\
     closed p = ChanOpen /\ disc p = ChanOpen /\ err p = None /\
     created p = monotime_Now amb /\
     node p = find (fun n => bool_decide (ID n = repeat 0 (nodeIDLen X))) (kadDB srv)).
Proof.
  unfold setupConn.
  destruct (Serialize X _) as [e|buffer];
    [split; [split; [discriminate|intros [? ?]; discriminate]|discriminate]|].
  destruct (sendRawMsg fd _) as [fd1 e1].
  destruct (recvRawMsg fd1 _ _) as [fd2 [e|m]] eqn:Hrecv;
    [split; [split; [discriminate|intros [? ?]; discriminate]|discriminate]|].
  destruct (Deserialize X _ _) as [e|];
    [split; [split; [discriminate|intros [? ?]; discriminate]|discriminate]|].
  destruct (assignCodes X _ _ _ _) as [pm cm].
  destruct (recvRawMsg_keeps_open _ _ _ _ _ Hrecv) as (Hopen & _).
  destruct (flags =? inboundConn) eqn:Hf.
  - cbn [nodeID].
    destruct (find _ (kadDB srv)) as [n|] eqn:Hfind; cbn [returned admitted fd_after].
    + split; [split; [eauto|reflexivity]|].
      intros p [= <-]. cbn. repeat split; assumption || reflexivity.
    + split; [split; [discriminate|intros [? ?]; discriminate]|discriminate].
  - cbn [returned admitted fd_after].
    split; [split; [discriminate|intros [? ?]; discriminate]|discriminate].
Qed.

(** X12: the frame a handshake sends.  With the handshake serialized to
    [buffer] and a healthy connection, [setupConn] writes one frame whatever
    happens next: [buffer] under the control code and the handshake message
    code.  When the two codes fit sixteen bits and the length thirty-two, the
    other end reads this frame back with exactly these codes and [buffer] as
    payload. *)
Theorem setupConn_sends_handshake_frame (srv : Server) (fd : Conn) (flags : Z)
    (dialDest : option Node) (amb : Ambient) (buffer : list Z) :
  Serialize X (local_handshake X srv amb) = inr buffer ->
  healthy fd ->
  wbuf (fd_after (setupConn X srv fd flags dialDest amb))
    = wbuf fd ++ wire_bytes (handshake_frame X buffer) /\
  (0 <= ctlProtoCode X < 2 ^ 16 ->
   0 <= ctlMsgProtoHandshake X < 2 ^ 16 ->
   Z.of_nat (length buffer) < 2 ^ 32 ->
   forall (cr : Conn) (rest : list Z) (now : Z) (p : PeerPtr),
     isClosed cr = false ->
     rbuf cr = wire_bytes (handshake_frame X buffer) ++ rest ->
     exists cr' m',
       recvRawMsg cr now p = (cr', inr m') /\
       rbuf cr' = rest /\
       protoCode m' = ctlProtoCode X /\
       Message.msgCode (message m') = ctlMsgProtoHandshake X /\
       Message.payload (message m') = buffer).
Proof.
  intros Hser [Hopen Hroom]. split.
  - unfold setupConn. fold (local_handshake X srv amb). rewrite Hser.
    fold (handshake_frame X buffer).
    destruct (sendRawMsg_healthy fd (handshake_frame X buffer) Hopen Hroom)
      as (fd1 & Hsend).
    rewrite Hsend. cbv beta iota zeta. apply sendRawMsg_ok in Hsend as (Hw & _).
    pose proof (recvRawMsg_wbuf fd1 (time_Now amb) (self_ptr amb)) as Hwb.
    destruct (recvRawMsg fd1 _ _) as [fd2 [e|m]]; cbn [fst] in Hwb;
      [cbn [fd_after conn_Close wbuf]; congruence|].
    destruct (Deserialize X _ _) as [e|];
      [cbn [fd_after conn_Close wbuf]; congruence|].
    destruct (assignCodes X _ _ _ _) as [pm cm].
    destruct (if flags =? inboundConn then _ else _);
      cbn [fd_after conn_Close wbuf]; congruence.
  - intros Hpc Hmc Hlen cr rest now p Hcr Hr.
    assert (Hok : frame_ok (handshake_frame X buffer)).
    { unfold frame_ok, handshake_frame, uint32; cbn.
      rewrite Z.mod_small by lia. repeat split; lia. }
    destruct (recvRawMsg_wire _ cr rest now p Hok Hcr Hr)
      as (cr' & m' & Hrecv & Hrest & Hp & _ & Hm & Hpl).
    exists cr', m'. repeat split; assumption.
Qed.

(** X13: a failed handshake write goes unnoticed.  The outcome of
    [setupConn] does not depend on the write side of the connection: with
    any other bytes written before and any other failure point of the write,
    the same error or none is returned, the same node is admitted or none,
    and the same bytes are left to read. *)
Theorem setupConn_ignores_write_side (srv : Server) (fd : Conn) (flags : Z)
    (dialDest : option Node) (amb : Ambient) (w : list Z) (room : option nat) :
  returned (setupConn X srv (with_wside fd w room) flags dialDest amb)
    = returned (setupConn X srv fd flags dialDest amb) /\
  option_map node (admitted (setupConn X srv (with_wside fd w room) flags dialDest amb))
    = option_map node (admitted (setupConn X srv fd flags dialDest amb)) /\
  rbuf (fd_after (setupConn X srv (with_wside fd w room) flags dialDest amb))
    = rbuf (fd_after (setupConn X srv fd flags dialDest amb)).
Proof.
  unfold setupConn.
  destruct (Serialize X _) as [e|buffer]; [now cbn|].
  fold (handshake_frame X buffer).
  pose proof (sendRawMsg_rbuf (with_wside fd w room) (handshake_frame X buffer)) as R1.
  pose proof (sendRawMsg_isClosed (with_wside fd w room) (handshake_frame X buffer)) as C1.
  pose proof (sendRawMsg_rbuf fd (handshake_frame X buffer)) as R2.
  pose proof (sendRawMsg_isClosed fd (handshake_frame X buffer)) as C2.
  destruct (sendRawMsg (with_wside fd w room) _) as [fa ea].
  destruct (sendRawMsg fd _) as [fb eb]. cbn [fst with_wside rbuf isClosed] in *.
  destruct (recvRawMsg_read_side fa fb (time_Now amb) (self_ptr amb))
    as (Hres & Hrb); [congruence|congruence|].
  destruct (recvRawMsg fa _ _) as [fa2 ra].
  destruct (recvRawMsg fb _ _) as [fb2 rb]. cbn [fst snd] in *. subst rb.
  destruct ra as [e|m]; [now cbn|].
  destruct (Deserialize X _ _) as [e|]; [now cbn|].
  destruct (assignCodes X _ _ _ _) as [pm cm].
  destruct (if flags =? inboundConn then _ else _); now cbn.
Qed.

(** X14: the handshake reads one frame and no more.  If the handshake could
    be serialized and the open connection delivers a well-formed frame
    followed by [rest], then [rest] is what is left to read when [setupConn]
    returns, on every path, and an admitted peer starts its reader on
    [rest]. *)
Theorem setupConn_reads_one_frame (srv : Server) (fd : Conn) (flags : Z)
    (dialDest : option Node) (amb : Ambient) (m : msg) (rest buffer : list Z) :
  Serialize X (local_handshake X srv amb) = inr buffer ->
  frame_ok m ->
  isClosed fd = false ->
  rbuf fd = wire_bytes m ++ rest ->
  rbuf (fd_after (setupConn X srv fd flags dialDest amb)) = rest /\
  (forall p, admitted (setupConn X srv fd flags dialDest amb) = Some p ->
     rbuf (conn p) = rest).
Proof.
  intros Hser Hm Hopen Hr.
  unfold setupConn. fold (local_handshake X srv amb). rewrite Hser.
  fold (handshake_frame X buffer).
  pose proof (sendRawMsg_rbuf fd (handshake_frame X buffer)) as R1.
  pose proof (sendRawMsg_isClosed fd (handshake_frame X buffer)) as C1.
  destruct (sendRawMsg fd _) as [fd1 e1]. cbn [fst] in *.
  rewrite Hr in R1. rewrite Hopen in C1.
  destruct (recvRawMsg_wire m fd1 rest (time_Now amb) (self_ptr amb) Hm C1 R1)
    as (fd2 & m' & Hrecv & Hrest & _).
  rewrite Hrecv.
  destruct (Deserialize X _ _) as [e|]; [cbn; split; [exact Hrest|discriminate]|].
  destruct (assignCodes X _ _ _ _) as [pm cm].
  destruct (if flags =? inboundConn then _ else _); cbn;
    (split; [exact Hrest|]); [|discriminate].
  intros p [= <-]. exact Hrest.
Qed.

End HandshakeMore.

(** ** More on the server loop *)

Section ServerLoopMore.

Variable nid : PeerPtr -> Address.
Variable kad : list Node.

Lemma serve_app (evs1 evs2 : list event) (peers : gmap Address PeerPtr) :
  (serve nid kad peers (evs1 ++ evs2)).1
  = (serve nid kad (serve nid kad peers evs1).1 evs2).1.
Proof.
  revert peers. induction evs1 as [|ev evs1 IH]; intros peers; [reflexivity|].
  cbn [app serve]. specialize (IH (serve_event nid peers ev).1).
  destruct (serve_event nid peers ev) as [peers1 eff]; cbn [fst] in IH.
  destruct (serve nid kad peers1 (evs1 ++ evs2)) as [pa ea].
  destruct (serve nid kad peers1 evs1) as [pb eb]. exact IH.
Qed.

Lemma serve_cons (ev : event) (evs : list event) (peers : gmap Address PeerPtr) :
  (serve nid kad peers (ev :: evs)).1
  = (serve nid kad (serve_event nid peers ev).1 evs).1.
Proof.
  cbn [serve]. destruct (serve_event nid peers ev) as [peers1 eff]. cbn [fst].
  now destruct (serve nid kad peers1 evs).
Qed.

(** Events that do not add [p] do not bring [p] into the map. *)
Lemma serve_absent (evs : list event) (peers : gmap Address PeerPtr) (p : PeerPtr) :
  AddPeer p ∉ evs ->
  (forall k, peers !! k <> Some p) ->
  forall k, (serve nid kad peers evs).1 !! k <> Some p.
Proof.
  revert peers. induction evs as [|ev evs IH]; intros peers Hno Habs k.
  - apply Habs.
  - rewrite serve_cons. apply not_elem_of_cons in Hno as [Hne Hno].
    apply IH; [exact Hno|]. clear k. intros k.
    destruct ev as [|c|pd]; cbn.
    + apply Habs.
    + destruct (peers !! nid c); cbn; [apply Habs|].
      rewrite lookup_insert. case_decide; [congruence|apply Habs].
    + destruct (peers !! nid pd) as [cur|]; cbn; [|apply Habs].
      case_bool_decide; cbn; [|apply Habs].
      rewrite lookup_delete. case_decide; [discriminate|apply Habs].
Qed.

(** X15: a peer's add followed by its own remove leaves the map as it was.
    This holds whether the peer was admitted (it is inserted, then deleted)
    or turned away as a duplicate (the peer mapped under its NodeID stays,
    and the only effect is the Disconnect with reason 10). *)
Theorem add_then_remove_restores (peers : gmap Address PeerPtr) (c : PeerPtr) :
  peers !! nid c <> Some c ->
  (serve_event nid (serve_event nid peers (AddPeer c)).1 (DelPeer c)).1 = peers /\
  (serve_event nid (serve_event nid peers (AddPeer c)).1 (DelPeer c)).2 = [] /\
  (serve_event nid peers (AddPeer c)).2 =
    if decide (is_Some (peers !! nid c)) then [EffDisconnect c discAlreadyConnected]
    else [].
Proof.
  intros Hne. cbn [serve_event]. destruct (peers !! nid c) as [a|] eqn:E.
  - cbn [fst snd serve_event]. rewrite E.
    rewrite decide_True by eauto.
    case_bool_decide as Hac; [congruence|]. now cbn.
  - cbn [fst snd serve_event]. rewrite lookup_insert_eq.
    rewrite bool_decide_eq_true_2 by reflexivity. cbn [fst snd].
    rewrite decide_False by (intros [? ?]; discriminate).
    split; [now apply delete_insert_id|]. now split.
Qed.

(** X16: a departed peer is not in the map.  From the empty map, once the
    loop has processed a remove-peer event of [p] and no add-peer event of
    [p] since, no entry of the peer map holds [p]. *)
Theorem removed_peer_is_gone (evs1 evs2 : list event) (p : PeerPtr) (k : Address) :
  AddPeer p ∉ evs2 ->
  (serve nid kad ∅ (evs1 ++ DelPeer p :: evs2)).1 !! k <> Some p.
Proof.
  intros Hno. rewrite serve_app, serve_cons.
  apply serve_absent; [exact Hno|]. clear k. intros k.
  pose proof (serve_keyed nid kad evs1 _ (keyed_empty nid)) as Hk.
  set (m := (serve nid kad ∅ evs1).1) in *.
  cbn [serve_event]. destruct (m !! nid p) as [cur|] eqn:E; cbn [fst].
  - case_bool_decide as Hc; cbn [fst].
    + subst cur. rewrite lookup_delete. case_decide; [discriminate|].
      intros Hkp. apply Hk in Hkp. congruence.
    + intros Hkp. pose proof (Hk _ _ Hkp) as <-. congruence.
  - intros Hkp. pose proof (Hk _ _ Hkp) as <-. congruence.
Qed.

(** X17: whom the loop dials.  A node of the snapshot is dialled in a round
    exactly when no peer is mapped under its ID; so a node is not dialled in
    the round after a peer with its ID arrived on addpeer, and it is dialled
    again in the round after the mapped peer's own remove-peer event. *)
Theorem dial_follows_peer_map (peers : gmap Address PeerPtr) (c : PeerPtr) (n : Node) :
  n ∈ kad ->
  ID n = nid c ->
  (EffDial n ∈ scheduleTasks kad peers <-> peers !! nid c = None) /\
  (EffDial n ∉ scheduleTasks kad (serve_event nid peers (AddPeer c)).1) /\
  (peers !! nid c = Some c ->
   EffDial n ∈ scheduleTasks kad (serve_event nid peers (DelPeer c)).1).
Proof.
  intros Hin Hid.
  assert (Hdial : forall m : gmap Address PeerPtr,
            EffDial n ∈ scheduleTasks kad m <-> m !! nid c = None).
  { intros m. unfold scheduleTasks. rewrite list_elem_of_fmap. split.
    - intros (n' & [= <-] & Hf). apply list_elem_of_filter in Hf as [Hf _].
      now rewrite <- Hid.
    - intros Hm. exists n. split; [reflexivity|].
      apply list_elem_of_filter. split; [now rewrite Hid|exact Hin]. }
  split; [apply Hdial|]. split.
  - rewrite Hdial. cbn [serve_event].
    destruct (peers !! nid c) eqn:E; cbn [fst]; [now rewrite E|].
    now rewrite lookup_insert_eq.
  - intros Hc. rewrite Hdial. cbn [serve_event]. rewrite Hc.
    rewrite bool_decide_eq_true_2 by reflexivity. cbn [fst].
    apply lookup_delete_eq.
Qed.

Lemma drain_consumes_size (dels : list PeerPtr) (peers : gmap Address PeerPtr)
    (final : gmap Address PeerPtr) (rest : list PeerPtr) :
  (drain nid peers dels).2 = Returned final rest ->
  (size peers <= length (drain nid peers dels).1)%nat /\
  (length (drain nid peers dels).1 + length rest = length dels)%nat.
Proof.
  revert peers. induction dels as [|p dels IH]; intros peers; rewrite drain_eq.
  - destruct (0 <? size peers)%nat eqn:E; cbn [fst snd]; [discriminate|].
    apply Nat.ltb_ge in E. intros [= ? ?]; subst. cbn. lia.
  - destruct (0 <? size peers)%nat eqn:E; cbn [fst snd].
    + intros Hr. destruct (IH _ Hr) as [H1 H2]. cbn [length].
      pose proof (map_size_delete (nid p) peers) as Hs.
      destruct (peers !! nid p); cbn in Hs; lia.
    + apply Nat.ltb_ge in E. intros [= ? ?]; subst. cbn. lia.
Qed.

(** X18: the shutdown waits for as many remove-peer events as there are
    peers.  When the drain loop returns, every call of Disconnect on a mapped
    peer has returned, one call per peer and all of them before the first
    receive; the loop has taken at least one event from delpeer for every
    peer that was in the map, and the events it did not take are left in the
    channel. *)
Theorem shutdown_waits_for_every_peer
    (view : PeerPtr -> PeerRun) (pick : PeerPtr -> nat)
    (peers final : gmap Address PeerPtr) (dels rest : list PeerPtr) :
  (shutdown nid view pick peers dels).2 = ShutDrained (Returned final rest) ->
  exists consumed,
    dels = consumed ++ rest /\
    (size peers <= length consumed)%nat /\
    (shutdown nid view pick peers dels).1
      = map (fun kv : Address * PeerPtr => EffDisconnect kv.2 discServerQuit)
          (map_to_list peers)
        ++ map EffRecvDel consumed /\
    length (map (fun kv : Address * PeerPtr => EffDisconnect kv.2 discServerQuit)
              (map_to_list peers)) = size peers /\
    (forall k p, peers !! k = Some p -> call_returns view pick p).
Proof.
  unfold shutdown, disconnectAll. intros Hr.
  destruct (disconnectEach view pick (map snd (map_to_list peers)))
    as [effs [|p|p]] eqn:Hcalls; cbn [snd] in Hr; try discriminate.
  apply disconnectEach_AllReturned in Hcalls as [HF ->].
  destruct (drain_spec nid dels peers) as (cs & un & Hd & Heff & _ & Hres).
  pose proof (drain_consumes_size dels peers) as Hsz.
  destruct (drain nid peers dels) as [effs2 r]; cbn [fst snd] in *.
  injection Hr as ->. destruct Hres as (_ & _ & <-).
  destruct (Hsz final rest eq_refl) as [H1 _].
  exists cs. rewrite Heff, length_map in H1.
  split; [exact Hd|]. split; [exact H1|]. split; [|split].
  - rewrite Heff. f_equal. now rewrite map_map.
  - now rewrite length_map, length_map_to_list.
  - intros k p Hk. rewrite Forall_forall in HF. apply HF.
    apply list_elem_of_fmap. exists (k, p). split; [reflexivity|].
    now apply elem_of_map_to_list.
Qed.

End ServerLoopMore.

(** ** Start *)

Lemma proto_at_after_loop (protos : list Protocol) (at_round : nat) :
  (pred (length protos) <= at_round)%nat -> proto_at protos at_round = last protos.
Proof.
  intros H. unfold proto_at. rewrite Nat.min_r by exact H.
  symmetry. apply last_lookup.
Qed.

(** X19: what a second Start finds.  On a server that is not running, Start
    marks the server running as soon as it has a logger, before it listens.
    So unless the first call failed for want of a logger, every later call
    returns the already-running error and changes nothing, also when the
    first call failed to listen and launched no goroutine at all; a first
    call that succeeded left an empty peer map and launched the accept loop,
    one goroutine for each round of the loop over the protocols, and the
    server loop.  The goroutines of the protocols share the variable of that
    loop: one that reads it once the loop is over finds the last protocol,
    whichever round launched it, and the goroutine of the last round can
    find no other. *)
Theorem Start_marks_running_before_listening
    (protos : list Protocol) (lg1 lg2 : bool) (l1 l2 : option error)
    (st : ServerLife) :
  running st = false ->
  (lg1 = true ->
     Start protos lg2 l2 (Start protos lg1 l1 st).1
       = ((Start protos lg1 l1 st).1, Some ErrAlreadyRunning)) /\
  (lg1 = false ->
     (Start protos lg1 l1 st).2 = Some ErrCreateLogger /\
     running (Start protos lg1 l1 st).1 = false) /\
  (forall e, lg1 = true -> l1 = Some e ->
     (Start protos lg1 l1 st).2 = Some (ErrListen e) /\
     running (Start protos lg1 l1 st).1 = true /\
     tasks (Start protos lg1 l1 st).1 = tasks st) /\
  (lg1 = true -> l1 = None ->
     (Start protos lg1 l1 st).2 = None /\
     life_peers (Start protos lg1 l1 st).1 = Some ∅ /\
     tasks (Start protos lg1 l1 st).1
       = tasks st ++ TaskListenLoop :: map TaskProtocol (seq 0 (length protos))
         ++ [TaskRun]) /\
  (forall round at_round,
     (pred (length protos) <= at_round)%nat ->
     proto_at protos at_round = last protos /\
     (round = pred (length protos) ->
      forall p, closure_reads protos round p -> last protos = Some p)).
Proof.
  intros Hrun. unfold Start. rewrite Hrun.
  split; [|split; [|split; [|split]]].
  - intros ->. cbn. now destruct l1.
  - intros ->. now cbn.
  - intros e -> ->. now cbn.
  - intros -> ->. now cbn.
  - intros round at_round Hat. split; [now apply proto_at_after_loop|].
    intros -> p (a & Ha & Hp). now rewrite proto_at_after_loop in Hp.
Qed.

(** ** The accept loop *)

Lemma listen_tokens_pos (M : Z) : 0 < listen_tokens M.
Proof.
  unfold listen_tokens, maxAcceptConns. destruct (Z.ltb_spec 0 M); lia.
Qed.

Lemma listen_step_tokens (l l' : Listener) (ev : listen_event) :
  listen_step l ev = Some l' ->
  (slots l' + handshaking l' + held l' = slots l + handshaking l + held l)%nat.
Proof.
  unfold listen_step, held.
  destruct ev, (lpc l) eqn:Hpc; try discriminate;
    try (destruct (slots l) eqn:Hs; [discriminate|]);
    try (destruct (handshaking l) eqn:Hh; [discriminate|]);
    intros [= <-]; cbn; rewrite ?Hpc; lia.
Qed.

Lemma listen_run_tokens (evs : list listen_event) (l l' : Listener) :
  listen_run l evs = Some l' ->
  (slots l' + handshaking l' + held l' = slots l + handshaking l + held l)%nat.
Proof.
  revert l. induction evs as [|ev evs IH]; intros l; cbn.
  - now intros [= <-].
  - destruct (listen_step l ev) as [l1|] eqn:E; [|discriminate].
    intros H. rewrite (IH _ H). now apply (listen_step_tokens l l1 ev).
Qed.

(** X20: the accept loop bounds the handshakes in flight.  The number of
    tokens is MaxPendingPeers when that is positive and 50 otherwise.  After
    any sequence of accepts, accept errors and finished handshakes, the
    tokens in the channel, the handshakes in flight and the token the loop
    holds add up to that number; so at most that many handshakes run at a
    time, the channel has room for every token put back, and with all tokens
    out the loop takes no connection. *)
Theorem listenLoop_bounds_handshakes (M : Z) (evs : list listen_event) (l : Listener) :
  listen_run (listenLoop_start M) evs = Some l ->
  listen_tokens M = (if 0 <? M then M else 50) /\
  Z.of_nat (slots l + handshaking l + held l) = listen_tokens M /\
  Z.of_nat (handshaking l) <= listen_tokens M /\
  (handshaking l <> 0%nat -> Z.of_nat (slots l) < listen_tokens M) /\
  (Z.of_nat (handshaking l) = listen_tokens M ->
     listen_step l SlotTaken = None /\ listen_step l Accepted = None).
Proof.
  intros Hrun. apply listen_run_tokens in Hrun.
  unfold listenLoop_start in Hrun; cbn [slots handshaking held lpc] in Hrun.
  pose proof (listen_tokens_pos M) as Hpos.
  split; [reflexivity|].
  assert (Hsum : Z.of_nat (slots l + handshaking l + held l) = listen_tokens M) by lia.
  split; [exact Hsum|]. split; [lia|]. split; [lia|].
  intros Hall.
  assert (Hs : slots l = 0%nat) by lia. assert (Hh : held l = 0%nat) by lia.
  unfold held in Hh. unfold listen_step. rewrite Hs.
  destruct (lpc l); try discriminate. now split.
Qed.

(** ** Worked instances *)

(** A decidable statement about concrete values is settled by evaluation. *)
Ltac by_compute := apply (bool_decide_unpack _); vm_compute; exact I.

(** The fields of a concrete frame fit. *)
Ltac frame_fits := unfold frame_ok; cbn; lia.

Lemma assignCodes_tables_agree_witness :
  (assignCodes sampleX [chain1; tx1] 2 ∅ ∅).2 !! Cap_String sampleX (cap tx1)
    = Some (2 + Z.of_nat 1) /\
  (assignCodes sampleX [chain1; tx1] 2 ∅ ∅).1 !! (2 + Z.of_nat 1) = Some tx1.
Proof.
  refine (proj1 (assignCodes_tables_agree sampleX [chain1; tx1] 2 _ _ _) 1%nat tx1 _).
  - lia.
  - by_compute.
  - by_compute.
  - reflexivity.
Defined.

Lemma SendMsg_reaches_protocol_witness :
  (SendMsg sampleX (peer_with_tables sampleX [chain1; tx1] 2 (open_conn [])) tx1
     (message sample_frame)).2 = None /\
  exists cr' m',
    recvRawMsg
      (open_conn (wbuf (conn (SendMsg sampleX
                                (peer_with_tables sampleX [chain1; tx1] 2 (open_conn []))
                                tx1 (message sample_frame)).1) ++ [9]))
      5 1%nat = (cr', inr m') /\
    rbuf cr' = [9] /\
    Message.msgCode (message m') = Message.msgCode (message sample_frame) /\
    Message.payload (message m') = Message.payload (message sample_frame) /\
    handle sampleX (peer_with_tables sampleX [chain1; tx1] 2
                      (open_conn (wbuf (conn (SendMsg sampleX
                                (peer_with_tables sampleX [chain1; tx1] 2 (open_conn []))
                                tx1 (message sample_frame)).1) ++ [9])))
      m' true = Forwarded tx1.
Proof.
  refine (SendMsg_reaches_protocol sampleX [chain1; tx1] 2 tx1 (message sample_frame)
            (open_conn []) _ [9] 5 1%nat _ _ _ _ _ _ _ _ _ _).
  - lia.
  - by_compute.
  - by_compute.
  - by_compute.
  - by_compute.
  - by_compute.
  - reflexivity.
  - split; reflexivity.
  - reflexivity.
  - reflexivity.
Defined.

Lemma SendMsg_unknown_protocol_witness :
  SendMsg sampleX (peer_with_tables sampleX [chain1; tx1] 2 (open_conn [])) light1
    (message sample_frame)
  = (peer_with_tables sampleX [chain1; tx1] 2 (open_conn []), Some ErrNotFoundProtoCode).
Proof.
  apply (SendMsg_unknown_protocol sampleX [chain1; tx1] 2 light1).
  by_compute.
Defined.

Lemma control_frame_dispatch_witness :
  (sendCtlMsg sampleX (open_conn []) 3).2 = None /\
  exists cr' m',
    recvRawMsg (open_conn (wbuf (sendCtlMsg sampleX (open_conn []) 3).1)) 0 0%nat
      = (cr', inr m') /\
    rbuf cr' = [] /\
    Message.payload (message m') = [] /\
    handle sampleX (fresh_peer (open_conn [])) m' true = PongSpawned.
Proof.
  refine (control_frame_dispatch sampleX 3 (open_conn []) _ (fresh_peer (open_conn []))
            [] 0 0%nat true _ _ _ _ _ _).
  - by_compute.
  - by_compute.
  - reflexivity.
  - split; reflexivity.
  - reflexivity.
  - reflexivity.
Defined.

Lemma readLoop_in_order_witness :
  (readLoop sampleX 3
     (parked (open_conn (wire_bytes sample_frame ++ wire_bytes (ctl_frame sampleX 3)
                         ++ [1; 2])))
     (fun i => Z.of_nat i) 1%nat (fun _ => true) 0).2 = true.
Proof.
  refine (proj1 (readLoop_in_order sampleX [sample_frame; ctl_frame sampleX 3] [1; 2]
                   (parked (open_conn (wire_bytes sample_frame
                                       ++ wire_bytes (ctl_frame sampleX 3) ++ [1; 2])))
                   (fun i => Z.of_nat i) 1%nat (fun _ => true) 3 _ _ _ _ _ _)).
  - constructor; [frame_fits|constructor; [frame_fits|constructor]].
  - cbn; lia.
  - reflexivity.
  - reflexivity.
  - intros [|[|j]] m Hj; cbn in Hj; try discriminate; injection Hj as <-; reflexivity.
  - cbn; lia.
Defined.

Lemma readLoop_stops_at_refused_frame_witness :
  (readLoop sampleX 2 (parked (open_conn (wire_bytes stray_frame ++ [8; 8])))
     (fun i => Z.of_nat i) 1%nat (fun _ => true) 0).2 = true /\
  length (readLoop sampleX 2 (parked (open_conn (wire_bytes stray_frame ++ [8; 8])))
            (fun i => Z.of_nat i) 1%nat (fun _ => true) 0).1.1 = 1%nat /\
  readErr (readLoop sampleX 2 (parked (open_conn (wire_bytes stray_frame ++ [8; 8])))
             (fun i => Z.of_nat i) 1%nat (fun _ => true) 0).1.2
    = [] ++ [Some ErrNotValidProtoCode] /\
  rbuf (conn (peer (readLoop sampleX 2
                      (parked (open_conn (wire_bytes stray_frame ++ [8; 8])))
                      (fun i => Z.of_nat i) 1%nat (fun _ => true) 0).1.2)) = [8; 8].
Proof.
  refine (readLoop_stops_at_refused_frame sampleX stray_frame [8; 8]
            (parked (open_conn (wire_bytes stray_frame ++ [8; 8])))
            (fun i => Z.of_nat i) 1%nat (fun _ => true) 2 ErrNotValidProtoCode
            _ _ _ _ _).
  - frame_fits.
  - reflexivity.
  - reflexivity.
  - reflexivity.
  - lia.
Defined.

Lemma run_closes_in_order_witness :
  (isClosed (conn (peer (parked (open_conn [])))) = true ->
     closed (peer (parked (open_conn []))) = ChanClosed) /\
  (disc (peer (parked (open_conn []))) = ChanClosed ->
     isClosed (conn (peer (parked (open_conn [])))) = true) /\
  (forall s', (DiscPosted, s') ∈ Disconnect (parked (open_conn [])) 11 ->
     closed (peer (parked (open_conn []))) = ChanOpen /\
     disc (peer (parked (open_conn []))) = ChanOpen /\
     isClosed (conn (peer (parked (open_conn [])))) = false /\
     pc s' = AtCloseClosed) /\
  (forall s', (DiscPanic, s') ∈ Disconnect (parked (open_conn [])) 11 ->
     (DiscDropped, parked (open_conn [])) ∈ Disconnect (parked (open_conn [])) 11 /\
     closed (peer (parked (open_conn []))) = ChanClosed /\
     disc (peer (parked (open_conn []))) = ChanClosed /\
     isClosed (conn (peer (parked (open_conn [])))) = true).
Proof.
  apply (run_closes_in_order sampleX (parked (open_conn [])) 11).
  apply (reach_run sampleX (entering (open_conn []))).
  - apply reach_start; reflexivity.
  - apply list_elem_of_here.
Defined.

Lemma setupConn_sends_handshake_frame_witness :
  wbuf (fd_after (setupConn sampleX (srvA [zero_node])
                    (open_conn (frame_bytes 1 10 [1; 2])) inboundConn None sample_amb))
  = wbuf (open_conn (frame_bytes 1 10 [1; 2]))
    ++ wire_bytes (handshake_frame sampleX [2; 77]).
Proof.
  refine (proj1 (setupConn_sends_handshake_frame sampleX (srvA [zero_node])
                   (open_conn (frame_bytes 1 10 [1; 2])) inboundConn None sample_amb
                   [2; 77] _ _)).
  - reflexivity.
  - split; reflexivity.
Defined.

Lemma setupConn_reads_one_frame_witness :
  rbuf (fd_after (setupConn sampleX (srvA [zero_node])
                    (open_conn (wire_bytes sample_frame ++ [9; 9]))
                    inboundConn None sample_amb)) = [9; 9].
Proof.
  refine (proj1 (setupConn_reads_one_frame sampleX (srvA [zero_node])
                   (open_conn (wire_bytes sample_frame ++ [9; 9])) inboundConn None
                   sample_amb sample_frame [9; 9] [2; 77] _ _ _ _)).
  - reflexivity.
  - frame_fits.
  - reflexivity.
  - reflexivity.
Defined.

Lemma add_then_remove_restores_witness :
  (serve_event same_node
     (serve_event same_node {[ [5] := 1%nat ]} (AddPeer 2%nat)).1 (DelPeer 2%nat)).1
  = {[ [5] := 1%nat ]}.
Proof.
  refine (proj1 (add_then_remove_restores same_node {[ [5] := 1%nat ]} 2%nat _)).
  by_compute.
Defined.

Lemma removed_peer_is_gone_witness :
  (serve own_node [] ∅ ([AddPeer 1%nat] ++ DelPeer 1%nat :: [Tick])).1 !! [1]
    <> Some 1%nat /\
  (serve own_node [] ∅ ([AddPeer 1%nat] ++ DelPeer 1%nat :: [Tick])).1 !! [1] = None.
Proof.
  split; [|reflexivity].
  apply (removed_peer_is_gone own_node [] [AddPeer 1%nat] [Tick] 1%nat [1]).
  intros H. apply elem_of_cons in H as [H|H]; [discriminate|inversion H].
Defined.

Lemma dial_follows_peer_map_witness :
  (EffDial node5 ∈ scheduleTasks [node5] ∅ <-> (∅ : gmap Address PeerPtr) !! same_node 1%nat = None) /\
  (EffDial node5 ∉ scheduleTasks [node5] (serve_event same_node ∅ (AddPeer 1%nat)).1) /\
  ((∅ : gmap Address PeerPtr) !! same_node 1%nat = Some 1%nat ->
   EffDial node5 ∈ scheduleTasks [node5] (serve_event same_node ∅ (DelPeer 1%nat)).1).
Proof.
  apply (dial_follows_peer_map same_node [node5] ∅ 1%nat node5).
  - apply list_elem_of_here.
  - reflexivity.
Defined.

Lemma shutdown_waits_for_every_peer_witness :
  exists consumed,
    [2%nat; 1%nat; 3%nat] = consumed ++ [3%nat] /\
    (size two_peers <= length consumed)%nat /\
    (shutdown own_node (fun _ => parked (open_conn [])) (fun _ => 0%nat) two_peers
       [2%nat; 1%nat; 3%nat]).1
      = map (fun kv : Address * PeerPtr => EffDisconnect kv.2 discServerQuit)
          (map_to_list two_peers)
        ++ map EffRecvDel consumed /\
    length (map (fun kv : Address * PeerPtr => EffDisconnect kv.2 discServerQuit)
              (map_to_list two_peers)) = size two_peers /\
    (forall k p, two_peers !! k = Some p ->
       call_returns (fun _ => parked (open_conn [])) (fun _ => 0%nat) p).
Proof.
  apply (shutdown_waits_for_every_peer own_node (fun _ => parked (open_conn []))
           (fun _ => 0%nat) two_peers ∅ [2%nat; 1%nat; 3%nat] [3%nat]).
  vm_compute. reflexivity.
Defined.

Lemma Start_marks_running_before_listening_witness :
  Start [tx1] true None (Start [tx1] true (Some ErrIO) new_server).1
  = ((Start [tx1] true (Some ErrIO) new_server).1, Some ErrAlreadyRunning).
Proof.
  refine (proj1 (Start_marks_running_before_listening [tx1] true true (Some ErrIO) None
                   new_server _) _); reflexivity.
Defined.

Lemma listenLoop_bounds_handshakes_witness :
  listen_step {| slots := 0; handshaking := 2; lpc := AtSlot |} SlotTaken = None /\
  listen_step {| slots := 0; handshaking := 2; lpc := AtSlot |} Accepted = None.
Proof.
  refine (proj2 (proj2 (proj2 (proj2
            (listenLoop_bounds_handshakes 2 [SlotTaken; Accepted; SlotTaken; Accepted]
               {| slots := 0; handshaking := 2; lpc := AtSlot |} _)))) _);
    reflexivity.
Defined.

Lemma run_returns_after_terminal_event_witness :
  (forall now self fwd,
     (readLoop_iter sampleX (parked (open_conn [1; 2])) now self fwd).2 = false ->
     exists e,
       err (peer (run_exec 5 (readLoop_iter sampleX (parked (open_conn [1; 2]))
                                now self fwd).1)) = Some e /\
       pc (run_exec 5 (readLoop_iter sampleX (parked (open_conn [1; 2]))
                         now self fwd).1) = AtReturn /\
       closed (peer (run_exec 5 (readLoop_iter sampleX (parked (open_conn [1; 2]))
                                   now self fwd).1)) = ChanClosed /\
       isClosed (conn (peer (run_exec 5 (readLoop_iter sampleX
                                           (parked (open_conn [1; 2]))
                                           now self fwd).1))) = true) /\
  (forall reason s',
     (DiscPosted, s') ∈ Disconnect (parked (open_conn [1; 2])) reason ->
     err (peer (run_exec 4 s')) = Some ErrDiscRecved /\
     pc (run_exec 4 s') = AtReturn /\
     closed (peer (run_exec 4 s')) = ChanClosed /\
     isClosed (conn (peer (run_exec 4 s'))) = true).
Proof.
  apply (run_returns_after_terminal_event sampleX (parked (open_conn [1; 2])));
    reflexivity.
Defined.
